(** * JSON schema builder: the field tree, its path-addressed edits and
      the projection to a JSON preview

    A shallow embedding of [src/components/json-schema-builder.tsx]:
    the handlers [addField] and [removeField], the projection
    [generateSchema], the rows [FieldRow] renders and the validator
    [schemaFormValidator], over models of the JavaScript primitives the
    component calls (string [split]/[join]/[includes], [parseInt], array
    [splice], object literals with spread) and of the react-hook-form calls
    it makes ([getValues], [setValue], [append], [remove]). *)

From Stdlib Require Import List String Ascii Bool ZArith NArith Lia.
From Stdlib Require Import DecimalString DecimalNat DecimalN DecimalFacts.
From Stdlib Require Import Sorted Permutation.
Import ListNotations.

Local Open Scope string_scope.
Local Open Scope list_scope.
#[local] Set Warnings "-register-all".

(* ================================================================= *)
(** ** JavaScript primitives *)

Module JS.

(** A Number as the component meets it: the result of [parseInt], an
    integer or NaN. *)
Inductive number : Type :=
| NaN
| Num (z : Z).

(** [`${index}`] for an array position: the decimal digits, no sign, no
    leading zero. *)
Definition toString (n : nat) : string :=
  NilEmpty.string_of_uint (Nat.to_uint n).

(** ASCII members of StrWhiteSpaceChar: TAB, LF, VT, FF, CR, SP. *)
Definition isWhiteSpace (c : ascii) : bool :=
  let n := N_of_ascii c in
  (((9 <=? n) && (n <=? 13)) || (n =? 32))%N.

Fixpoint trimStart (s : string) : string :=
  match s with
  | String c s' => if isWhiteSpace c then trimStart s' else s
  | EmptyString => EmptyString
  end.

(** The value of a character as a digit: 0-9, then a-z and A-Z for 10-35. *)
Definition digitValue (c : ascii) : option Z :=
  let n := Z.of_N (N_of_ascii c) in
  if ((48 <=? n) && (n <=? 57))%Z then Some (n - 48)%Z
  else if ((97 <=? n) && (n <=? 122))%Z then Some (n - 87)%Z
  else if ((65 <=? n) && (n <=? 90))%Z then Some (n - 55)%Z
  else None.

(** The longest prefix of radix-[R] digits, read most significant first;
    [acc] is [None] until a digit has been read. *)
Fixpoint parseDigits (R : Z) (s : string) (acc : option Z) : option Z :=
  match s with
  | EmptyString => acc
  | String c s' =>
      match digitValue c with
      | Some d =>
          if (d <? R)%Z
          then parseDigits R s'
                 (Some (match acc with Some a => a * R + d | None => d end)%Z)
          else acc
      | None => acc
      end
  end.

(** [parseInt(input)] with no radix argument: leading white space is
    skipped, one sign is read, a [0x]/[0X] prefix selects radix 16, and the
    digits up to the first other character give the value; no digit at all
    gives NaN. *)
Definition parseInt (input : string) : number :=
  let s := trimStart input in
  let '(sign, s) :=
    match s with
    | String "-" s' => ((-1)%Z, s')
    | String "+" s' => (1%Z, s')
    | _ => (1%Z, s)
    end in
  let '(R, s) :=
    match s with
    | String "0" (String "x" s') => (16%Z, s')
    | String "0" (String "X" s') => (16%Z, s')
    | _ => (10%Z, s)
    end in
  match parseDigits R s None with
  | None => NaN
  | Some z => Num (sign * z)
  end.

(** [s.split(sep)] for a one-character separator: never empty, the empty
    string splits into one empty part. *)
Fixpoint split (sep : ascii) (s : string) : list string :=
  match s with
  | EmptyString => [EmptyString]
  | String c s' =>
      if Ascii.eqb c sep then EmptyString :: split sep s'
      else match split sep s' with
           | [] => [String c EmptyString]
           | w :: ws => String c w :: ws
           end
  end.

(** [parts.join(sep)]. *)
Definition join (sep : string) (parts : list string) : string :=
  String.concat sep parts.

(** [s.includes(needle)]. *)
Fixpoint includes (needle s : string) : bool :=
  String.prefix needle s ||
  match s with
  | EmptyString => false
  | String _ s' => includes needle s'
  end.

(** ToIntegerOrInfinity: NaN becomes 0. *)
Definition toIntegerOrInfinity (n : number) : Z :=
  match n with
  | NaN => 0%Z
  | Num z => z
  end.

(** [copy.splice(start, deleteCount)], the array it leaves behind: a
    negative start counts from the end, a start past the end removes
    nothing. *)
Definition splice {A : Type} (start : number) (deleteCount : Z)
    (l : list A) : list A :=
  let len := Z.of_nat (List.length l) in
  let relativeStart := toIntegerOrInfinity start in
  let actualStart :=
    if (relativeStart <? 0)%Z then Z.max (len + relativeStart) 0
    else Z.min relativeStart len in
  let actualDeleteCount :=
    Z.min (Z.max deleteCount 0) (len - actualStart) in
  firstn (Z.to_nat actualStart) l
    ++ skipn (Z.to_nat (actualStart + actualDeleteCount)) l.

(** [x || []] for a value that is an array or undefined (an array, even an
    empty one, is truthy). *)
Definition orEmpty {A : Type} (x : option (list A)) : list A :=
  match x with
  | Some l => l
  | None => []
  end.

(** A value of the projection: a string or a plain object.  An object is
    the list of its own properties in the order [Object.keys] and
    [JSON.stringify] enumerate them. *)
Inductive value : Type :=
| VString (s : string)
| VObject (props : list (string * value)).

(** A property key that is an array index: the canonical decimal string of
    an integer below 2^32 - 1. *)
Definition arrayIndex (k : string) : option N :=
  match NilEmpty.uint_of_string k with
  | Some d =>
      let n := N.of_uint d in
      if (NilEmpty.string_of_uint (N.to_uint n) =? k)%string
         && (n <? 4294967295)%N
      then Some n else None
  | None => None
  end.

(** Own property keys are enumerated array indices first, in ascending
    numeric order, then the other strings in order of creation. [precedes k
    k'] says that a new key [k] is enumerated before an existing [k']. *)
Definition precedes (k k' : string) : bool :=
  match arrayIndex k, arrayIndex k' with
  | Some i, Some j => (i <? j)%N
  | Some _, None => true
  | None, _ => false
  end.

(** [{...o, [k]: v}]: the copy has the properties of [o] in their order;
    an existing [k] keeps its place and takes the new value, a new [k]
    takes the place its kind gives it. *)
Fixpoint defineProperty (k : string) (v : value)
    (o : list (string * value)) : list (string * value) :=
  match o with
  | [] => [(k, v)]
  | (k', v') :: o' =>
      if (k =? k')%string then (k', v) :: o'
      else if precedes k k' then (k, v) :: o
      else (k', v') :: defineProperty k v o'
  end.

(** [o[k]] on own properties. *)
Fixpoint getProperty (k : string) (o : list (string * value)) : option value :=
  match o with
  | [] => None
  | (k', v') :: o' => if (k =? k')%string then Some v' else getProperty k o'
  end.

Definition keys (o : list (string * value)) : list string := map fst o.

End JS.

(* ================================================================= *)
(** ** The data model *)

(** [type SchemaFieldType = "string" | "number" | "nested"]. *)
Inductive SchemaFieldType : Type :=
| TString
| TNumber
| TNested.

(** [interface SchemaField]; [fields] is optional, [None] is a field
    object without that property. *)
Inductive SchemaField : Type :=
  mkSchemaField {
    id : string;
    name : string;
    type : SchemaFieldType;
    fields : option (list SchemaField)
  }.

(** The form values are [{ fields: SchemaField[] }]; the record has that
    one member, so the state is the root array. *)
Definition SchemaFormValues : Type := list SchemaField.

Definition withFields (f : SchemaField) (c : option (list SchemaField))
    : SchemaField :=
  {| id := id f; name := name f; type := type f; fields := c |}.

Definition withType (f : SchemaField) (t : SchemaFieldType) : SchemaField :=
  {| id := id f; name := name f; type := t; fields := fields f |}.

Definition withName (f : SchemaField) (n : string) : SchemaField :=
  {| id := id f; name := n; type := type f; fields := fields f |}.

(** The literal a type is written as. *)
Definition typeTag (t : SchemaFieldType) : string :=
  match t with
  | TString => "string"
  | TNumber => "number"
  | TNested => "nested"
  end.

(** The outcome of a call in this model.  [OutOfModel] marks a call whose
    effect leaves [SchemaFormValues]: a path that names no array of fields,
    or a write below a field that does not exist, where react-hook-form
    builds containers that are no [SchemaField]. It is not an exception. *)
Inductive result (A : Type) : Type :=
| Ok (a : A)
| OutOfModel.
Arguments Ok {A} a.
Arguments OutOfModel {A}.

(** Handlers run on the form values and may return a value. *)
Definition M (A : Type) : Type := SchemaFormValues -> result (A * SchemaFormValues).

Definition ret {A : Type} (a : A) : M A := fun s => Ok (a, s).

Definition bind {A B : Type} (m : M A) (k : A -> M B) : M B :=
  fun s =>
    match m s with
    | Ok (a, s') => k a s'
    | OutOfModel => OutOfModel
    end.

Notation "x <- m ;; k" := (bind m (fun x => k))
  (at level 61, m at next level, right associativity).
Notation "m ;;; k" := (bind m (fun _ => k))
  (at level 61, right associativity).

(** The form values a call leaves, when it stays in the model. *)
Definition exec {A : Type} (m : M A) (s : SchemaFormValues)
    : option SchemaFormValues :=
  match m s with
  | Ok (_, s') => Some s'
  | OutOfModel => None
  end.

(* ================================================================= *)
(** ** react-hook-form, as the component calls it *)

Module ReactHookForm.

(** What a dotted name addresses in the form values. *)
Inductive Target : Type :=
| AtFields (idxs : list nat)            (* fields, fields.i.fields, ... *)
| AtKey (idxs : list nat) (key : string). (* fields.i.name, ... *)

(** An array position written as a path segment: [arr[k]] is an element
    only when [k] is the canonical decimal string of a position. *)
Definition position (k : string) : option nat :=
  match NilEmpty.uint_of_string k with
  | Some d =>
      let n := Nat.of_uint d in
      if (JS.toString n =? k)%string then Some n else None
  | None => None
  end.

(** The segments of a name, read from the root object: [fields], then
    alternately a position and a key. *)
Fixpoint target (segs : list string) (idxs : list nat) : option Target :=
  match segs with
  | [] => None
  | key :: rest =>
      match rest with
      | [] =>
          if (key =? "fields")%string then Some (AtFields idxs)
          else match idxs with
               | [] => None
               | _ :: _ => Some (AtKey idxs key)
               end
      | i :: rest' =>
          if (key =? "fields")%string then
            match position i with
            | Some n =>
                match rest' with
                | [] => None
                | _ :: _ => target rest' (idxs ++ [n])
                end
            | None => None
            end
          else None
      end
  end.

(** Modelled from the spec: react-hook-form's name parsing
    ([stringToPath]) is not part of the repository; a name is split at its
    dots as the spec's path resolution describes, "a sequence of
    sibling-indices, one per nesting level". *)
Definition stringToPath (path : string) : option Target :=
  target (JS.split "." path) [].

(** The field at a sequence of positions: element [i0] of the root, then
    element [i1] of its [fields], and so on; [None] is undefined. *)
Fixpoint lookupField (idxs : list nat) (l : list SchemaField)
    : option SchemaField :=
  match idxs with
  | [] => None
  | i :: rest =>
      match nth_error l i with
      | None => None
      | Some f =>
          match rest with
          | [] => Some f
          | _ :: _ =>
              match fields f with
              | Some c => lookupField rest c
              | None => None
              end
          end
      end
  end.

(** [l] with position [i] replaced. *)
Fixpoint replaceAt (i : nat) (f : SchemaField) (l : list SchemaField)
    : list SchemaField :=
  match l, i with
  | [], _ => []
  | _ :: l', O => f :: l'
  | x :: l', S i' => x :: replaceAt i' f l'
  end.

(** The form values with the field at [idxs] replaced by its image under
    [g]; [None] when no field is there. *)
Fixpoint updateField (idxs : list nat) (g : SchemaField -> SchemaField)
    (l : list SchemaField) : option (list SchemaField) :=
  match idxs with
  | [] => None
  | i :: rest =>
      match nth_error l i with
      | None => None
      | Some f =>
          match rest with
          | [] => Some (replaceAt i (g f) l)
          | _ :: _ =>
              match fields f with
              | Some c =>
                  match updateField rest g c with
                  | Some c' => Some (replaceAt i (withFields f (Some c')) l)
                  | None => None
                  end
              | None => None
              end
          end
      end
  end.

(** Modelled from the spec: [form.getValues(name)] of react-hook-form, for
    a name that addresses an array of fields; "resolution starts at the
    root sequence, takes element i0, then recurses into that element's
    children". A name that leads nowhere reads as undefined. *)
Definition getValues (path : string) : M (option (list SchemaField)) :=
  fun s =>
    match stringToPath path with
    | Some (AtFields []) => Ok (Some s, s)
    | Some (AtFields (i :: rest)) =>
        Ok (match lookupField (i :: rest) s with
            | Some f => fields f
            | None => None
            end, s)
    | _ => OutOfModel
    end.

(** Modelled from the spec: [form.setValue(name, value)] of
    react-hook-form, for a name that addresses an array of fields: the
    array is stored as the [fields] of the field above it. *)
Definition setValue (path : string) (v : list SchemaField) : M unit :=
  fun s =>
    match stringToPath path with
    | Some (AtFields []) => Ok (tt, v)
    | Some (AtFields (i :: rest)) =>
        match updateField (i :: rest) (fun f => withFields f (Some v)) s with
        | Some s' => Ok (tt, s')
        | None => OutOfModel
        end
    | _ => OutOfModel
    end.

(** Modelled from the spec: [append] of [useFieldArray] on the root array,
    "appends to the root sequence". *)
Definition append (f : SchemaField) : M unit :=
  fun s => Ok (tt, s ++ [f]).

(** Modelled from the spec: [remove(index)] of [useFieldArray] on the root
    array: "deletes the field ... from its parent's sequence, shifting
    following siblings' indices down". The library copies the array and
    calls [splice(index, 1)] on the copy, so the argument is read as
    [splice] reads a start: NaN as position 0, a position past the end as
    nothing to remove. *)
Definition remove (index : JS.number) : M unit :=
  fun s => Ok (tt, JS.splice index 1 s).

(** What a control hands to its change handler. *)
Inductive ChangeValue : Type :=
| Selected (t : SchemaFieldType)
| Typed (text : string).

(** Modelled from the spec: the change handler react-hook-form gives a
    registered or controlled input, which "overwrites the name at path" or
    "overwrites the type at path". *)
Definition onChange (path : string) (v : ChangeValue) : M unit :=
  fun s =>
    match stringToPath path, v with
    | Some (AtKey idxs key), Selected t =>
        if (key =? "type")%string then
          match updateField idxs (fun f => withType f t) s with
          | Some s' => Ok (tt, s')
          | None => OutOfModel
          end
        else OutOfModel
    | Some (AtKey idxs key), Typed text =>
        if (key =? "name")%string then
          match updateField idxs (fun f => withName f text) s with
          | Some s' => Ok (tt, s')
          | None => OutOfModel
          end
        else OutOfModel
    | _, _ => OutOfModel
    end.

End ReactHookForm.

(* ================================================================= *)
(** ** The component: [JsonSchemaBuilder] and [FieldRow] *)

Import ReactHookForm.

(** The field both [defaultValues] and [addField] build; [uuid] is what
    [crypto.randomUUID()] returned for it. *)
Definition newField (uuid : string) : SchemaField :=
  {| id := uuid; name := ""; type := TString; fields := None |}.

(** [defaultValues]: one field, drawn when the editor mounts. *)
Definition defaultValues (uuid : string) : SchemaFormValues :=
  [newField uuid].

(** [if (parentPath)]: an omitted argument and the empty string are both
    falsy. *)
Definition truthy (parentPath : option string) : option string :=
  match parentPath with
  | Some EmptyString => None
  | Some p => Some p
  | None => None
  end.

(** [addField(parentPath?)]. The body has no [return]: a call evaluates to
    undefined, [None]. *)
Definition addField (uuid : string) (parentPath : option string)
    : M (option string) :=
  let newField := newField uuid in
  match truthy parentPath with
  | Some parentPath =>
      currentFields <- getValues (parentPath ++ ".fields") ;;
      setValue (parentPath ++ ".fields")
        (JS.orEmpty currentFields ++ [newField]) ;;;
      ret None
  | None =>
      append newField ;;;
      ret None
  end.

(** [removeField(path)]. *)
Definition removeField (path : string) : M unit :=
  if JS.includes ".fields." path then
    let parts := JS.split "." path in
    let index := JS.parseInt (last parts "undefined") in
    let parentPath := JS.join "." (removelast parts) in
    currentFields <- getValues parentPath ;;
    let updatedFields := JS.splice index 1 (JS.orEmpty currentFields) in
    setValue parentPath updatedFields
  else
    remove (JS.parseInt path).

(** The value [generateSchema] gives one field: the [switch] on its type.
    The [default] arm of the source is not reachable at a
    [SchemaFieldType]. The [nested] arm is [generateSchema] on the
    children, written here as the same [reduce]. *)
Fixpoint fieldValue (field : SchemaField) : JS.value :=
  match type field with
  | TString => JS.VString "string"
  | TNumber => JS.VString "number"
  | TNested =>
      match fields field with
      | Some children =>
          JS.VObject
            (fold_left
               (fun acc field =>
                  JS.defineProperty (name field) (fieldValue field) acc)
               children [])
      | None => JS.VObject []
      end
  end.

(** [generateSchema(fields)]: [fields.reduce((acc, field) => ({...acc,
    [field.name]: fieldValue}), {})]. *)
Definition generateSchema (fields : list SchemaField) : JS.value :=
  JS.VObject
    (fold_left
       (fun acc field => JS.defineProperty (name field) (fieldValue field) acc)
       fields []).

(** [const schema = generateSchema(form.watch("fields"))]. *)
Definition schema (s : SchemaFormValues) : JS.value := generateSchema s.

(** The type select of a row: [onValueChange={onChange}] of the
    [Controller] named [`${path}.type`]. *)
Definition setFieldType (path : string) (t : SchemaFieldType) : M unit :=
  onChange (path ++ ".type") (Selected t).

(** The name input of a row: [register(`${path}.name`)]. *)
Definition setFieldName (path : string) (text : string) : M unit :=
  onChange (path ++ ".name") (Typed text).

(** What a rendered row offers: the buttons and inputs of one [FieldRow]. *)
Record Row : Type :=
  mkRow {
    rowPath : string;        (* the [path] prop *)
    rowField : SchemaField;  (* the field watched at that path *)
    rowAddNested : bool      (* the Add Nested Field button is shown *)
  }.

(** [nestedFields?.map((nestedField, nestedIndex) => <FieldRow
    path={`${path}.fields.${nestedIndex}`} />)] *)
Definition childPath (path : string) (nestedIndex : nat) : string :=
  path ++ ".fields." ++ JS.toString nestedIndex.

(** The rows one [FieldRow] renders: itself, and when its type is
    [nested] a row for each of its fields, in order. *)
Fixpoint FieldRow (path : string) (field : SchemaField) : list Row :=
  mkRow path field
    (match type field with TNested => true | _ => false end)
  :: match type field with
     | TNested =>
         match fields field with
         | Some nestedFields =>
             (fix rows (nestedIndex : nat) (l : list SchemaField) : list Row :=
                match l with
                | [] => []
                | nestedField :: l' =>
                    FieldRow (childPath path nestedIndex) nestedField
                      ++ rows (S nestedIndex) l'
                end) 0 nestedFields
         | None => []
         end
     | _ => []
     end.

(** [fields.map((field, index) => <FieldRow path={`fields.${index}`} />)],
    from position [index] on. *)
Fixpoint rootRows (index : nat) (fields : list SchemaField) : list Row :=
  match fields with
  | [] => []
  | field :: fields' =>
      FieldRow ("fields." ++ JS.toString index) field
        ++ rootRows (S index) fields'
  end.

(** The rows of the builder tab. *)
Definition JsonSchemaBuilder (s : SchemaFormValues) : list Row :=
  rootRows 0 s.

(** [schemaFormValidator]: every field needs a name of at least one
    character, and so do the members of its [fields] when it has that
    property ([z.lazy], [optional]), whatever its type. [id] and [type]
    hold by typing. *)
Fixpoint validField (field : SchemaField) : bool :=
  negb (String.length (name field) <? 1)%nat
  && match fields field with
     | Some children => forallb validField children
     | None => true
     end.

Definition schemaFormValidator (s : SchemaFormValues) : bool :=
  forallb validField s.

(** One call of a handler; [AddField] carries the id [crypto.randomUUID()]
    drew for it. *)
Inductive Op : Type :=
| AddField (uuid : string) (parentPath : option string)
| RemoveField (path : string).

Definition step (o : Op) : M unit :=
  match o with
  | AddField uuid parentPath => addField uuid parentPath ;;; ret tt
  | RemoveField path => removeField path
  end.

(** The calls of [ops] in order. *)
Fixpoint run (ops : list Op) : M unit :=
  match ops with
  | [] => ret tt
  | o :: ops' => step o ;;; run ops'
  end.

(** The ids [ops] drew. *)
Definition drawn (ops : list Op) : list string :=
  flat_map (fun o => match o with AddField u _ => [u] | RemoveField _ => [] end) ops.

(** Every id of a tree, children of any field included. *)
Fixpoint fieldIds (field : SchemaField) : list string :=
  id field
  :: match fields field with
     | Some children => flat_map fieldIds children
     | None => []
     end.

Definition ids (s : list SchemaField) : list string := flat_map fieldIds s.

(** The path [FieldRow] gives the field at positions [idxs]: the root row
    is [`fields.${index}`], each level below appends
    [`.fields.${nestedIndex}`]. *)
Definition pathOf (idxs : list nat) : string :=
  match idxs with
  | [] => ""
  | index :: rest => fold_left childPath rest ("fields." ++ JS.toString index)%string
  end.

(** The last field of [fs] named [k]. *)
Definition lastNamed (k : string) (fs : list SchemaField) : option SchemaField :=
  find (fun f => (name f =? k)%string) (rev fs).

(** [l] without its duplicates, each element at its first occurrence. *)
Fixpoint firstOccurrences (l : list string) : list string :=
  match l with
  | [] => []
  | x :: l' => x :: filter (fun y => negb (y =? x)%string) (firstOccurrences l')
  end.

Definition isArrayIndex (k : string) : bool :=
  match JS.arrayIndex k with Some _ => true | None => false end.

(** [l] without the element at position [i]. *)
Definition dropAt {A : Type} (i : nat) (l : list A) : list A :=
  firstn i l ++ skipn (S i) l.

(** Every character of [s] satisfies [p]. *)
Fixpoint allChars (p : ascii -> bool) (s : string) : bool :=
  match s with
  | EmptyString => true
  | String c s' => p c && allChars p s'
  end.

Definition isDigit (c : ascii) : bool :=
  let n := N_of_ascii c in ((48 <=? n) && (n <=? 57))%N.

Definition noDot (s : string) : bool :=
  allChars (fun c => negb (Ascii.eqb c ".")) s.

(** The segments of [pathOf idxs]. *)
Definition segments (idxs : list nat) : list string :=
  flat_map (fun i => ["fields"; JS.toString i]) idxs.

(** The own properties of a value; a string has none to enumerate here. *)
Definition properties (v : JS.value) : list (string * JS.value) :=
  match v with
  | JS.VObject o => o
  | JS.VString _ => []
  end.

(** The enumeration order of own keys: no key is enumerated before one
    that stands earlier in the list, and no key stands twice. *)
Definition enumerated (ks : list string) : Prop :=
  Sorted.StronglySorted (fun k k' => JS.precedes k' k = false) ks /\ NoDup ks.

(** The ids of the children of a field. *)
Definition childIds (f : SchemaField) : list string :=
  match fields f with
  | Some children => ids children
  | None => []
  end.

(** The field reached from [f] by the positions [rel], each taken in the
    [fields] of the field before. *)
Fixpoint descend (rel : list nat) (f : SchemaField) : option SchemaField :=
  match rel with
  | [] => Some f
  | i :: rel' =>
      match fields f with
      | Some c =>
          match nth_error c i with
          | Some x => descend rel' x
          | None => None
          end
      | None => None
      end
  end.

(** Every field on the way from [f] down [rel], [f] included and the
    field reached excluded, has type [nested]. *)
Fixpoint nestedAlong (rel : list nat) (f : SchemaField) : bool :=
  match rel with
  | [] => true
  | i :: rel' =>
      match type f, fields f with
      | TNested, Some c =>
          match nth_error c i with
          | Some x => nestedAlong rel' x
          | None => false
          end
      | _, _ => false
      end
  end.

(** The step of the [reduce] in [generateSchema]. *)
Definition schemaStep (acc : list (string * JS.value)) (field : SchemaField)
    : list (string * JS.value) :=
  JS.defineProperty (name field) (fieldValue field) acc.

(** [l'] is [l] with one stretch taken out. *)
Definition removed (l l' : list string) : Prop :=
  exists a b c, l = a ++ b ++ c /\ l' = a ++ c.

(** The rows [FieldRow] renders for the fields [l] of the row at [path],
    the first of them at position [nestedIndex]. *)
Fixpoint nestedRows (path : string) (nestedIndex : nat) (l : list SchemaField)
    : list Row :=
  match l with
  | [] => []
  | nestedField :: l' =>
      FieldRow (childPath path nestedIndex) nestedField
        ++ nestedRows path (S nestedIndex) l'
  end.

Definition isNested (t : SchemaFieldType) : bool :=
  match t with
  | TNested => true
  | _ => false
  end.

(** A call the screen offers in the form values [s]: the Add Field button
    is always there; a row has a remove button, and an Add Nested Field
    button when its type is [nested]. *)
Definition offers (s : SchemaFormValues) (o : Op) : bool :=
  match o with
  | AddField _ None => true
  | AddField _ (Some p) =>
      existsb (fun r => (rowPath r =? p)%string && rowAddNested r)
        (JsonSchemaBuilder s)
  | RemoveField p =>
      existsb (fun r => (rowPath r =? p)%string) (JsonSchemaBuilder s)
  end.

(** Every call of [ops] is offered by the screen rendered from the form
    values the calls before it left. *)
Fixpoint offered (s : SchemaFormValues) (ops : list Op) : bool :=
  match ops with
  | [] => true
  | o :: ops' =>
      offers s o
      && match exec (step o) s with
         | Some s1 => offered s1 ops'
         | None => true
         end
  end.

(* ================================================================= *)
(** ** Strings, paths and numbers *)

Section Strings.

Lemma allChars_impl (p q : ascii -> bool) (s : string) :
  (forall c, p c = true -> q c = true) ->
  allChars p s = true -> allChars q s = true.
Proof.
  intros Hpq. induction s as [|c s IH]; simpl; auto.
  rewrite !andb_true_iff. intros [Hc Hs]. auto.
Qed.

Lemma isDigit_not_dot (c : ascii) :
  isDigit c = true -> negb (Ascii.eqb c ".") = true.
Proof.
  destruct (Ascii.eqb_spec c "."%char) as [->|]; auto.
Qed.

Lemma digits_noDot (s : string) : allChars isDigit s = true -> noDot s = true.
Proof. apply allChars_impl, isDigit_not_dot. Qed.

Lemma uint_digits (d : Decimal.uint) :
  allChars isDigit (NilEmpty.string_of_uint d) = true.
Proof. induction d; simpl; auto. Qed.

Lemma toString_digits (n : nat) : allChars isDigit (JS.toString n) = true.
Proof. apply uint_digits. Qed.

Lemma toString_noDot (n : nat) : noDot (JS.toString n) = true.
Proof. apply digits_noDot, toString_digits. Qed.

Lemma to_uint_nonnil (n : nat) : Nat.to_uint n <> Decimal.Nil.
Proof.
  rewrite <- (DecimalNat.Unsigned.of_to n) at 1.
  rewrite DecimalNat.Unsigned.to_of. apply unorm_nonnil.
Qed.

Lemma toString_inj (n m : nat) : JS.toString n = JS.toString m -> n = m.
Proof.
  unfold JS.toString. intros H.
  apply DecimalNat.Unsigned.to_uint_inj.
  apply (f_equal NilEmpty.uint_of_string) in H.
  rewrite !NilEmpty.usu in H. congruence.
Qed.

Lemma position_toString (n : nat) : position (JS.toString n) = Some n.
Proof.
  unfold position, JS.toString at 1.
  rewrite NilEmpty.usu, DecimalNat.Unsigned.of_to, String.eqb_refl.
  reflexivity.
Qed.

Lemma parseDigits_uint (d : Decimal.uint) (a : nat) :
  JS.parseDigits 10 (NilEmpty.string_of_uint d) (Some (Z.of_nat a))
  = Some (Z.of_nat (Nat.of_uint_acc d a)).
Proof.
  revert a.
  induction d; intros a; simpl; auto;
    rewrite <- IHd; do 2 f_equal; rewrite Nat.tail_mul_spec; lia.
Qed.

Lemma parseInt_uint (d : Decimal.uint) :
  d <> Decimal.Nil ->
  JS.parseInt (NilEmpty.string_of_uint d) = JS.Num (Z.of_nat (Nat.of_uint d)).
Proof.
  intros Hd. unfold Nat.of_uint.
  destruct d as [|d|d|d|d|d|d|d|d|d|d]; try congruence; clear Hd;
    try (unfold JS.parseInt; simpl;
         match goal with
         | |- context [JS.parseDigits 10 _ (Some ?z)] =>
             change z with (Z.of_nat (Z.to_nat z))
         end;
         rewrite parseDigits_uint;
         match goal with
         | |- JS.Num (match ?X with _ => _ end) = _ =>
             transitivity (JS.Num X); [destruct X; reflexivity | reflexivity]
         end).
  unfold JS.parseInt. simpl NilEmpty.string_of_uint.
  change (JS.trimStart (String "0" (NilEmpty.string_of_uint d)))
    with (String "0" (NilEmpty.string_of_uint d)).
  cbv iota beta.
  assert (H : JS.parseDigits 10 (String "0" (NilEmpty.string_of_uint d)) None
              = Some (Z.of_nat (Nat.of_uint_acc d (Nat.tail_mul 10 0)))).
  { simpl. apply (parseDigits_uint d 0). }
  destruct d; simpl NilEmpty.string_of_uint in *; cbv iota beta;
    rewrite H; f_equal; apply Z.mul_1_l.
Qed.

Lemma parseInt_toString (n : nat) :
  JS.parseInt (JS.toString n) = JS.Num (Z.of_nat n).
Proof.
  unfold JS.toString. rewrite parseInt_uint by apply to_uint_nonnil.
  now rewrite DecimalNat.Unsigned.of_to.
Qed.

Lemma parseInt_root_path (s : string) : JS.parseInt ("fields." ++ s) = JS.NaN.
Proof. reflexivity. Qed.

Lemma prefix_app (n b : string) : String.prefix n (n ++ b)%string = true.
Proof.
  induction n as [|c n IH]; simpl.
  - now destruct b.
  - destruct (ascii_dec c c); [assumption|congruence].
Qed.

Lemma includes_app (n a b : string) : JS.includes n (a ++ n ++ b)%string = true.
Proof.
  induction a as [|c a IH].
  - change ("" ++ n ++ b)%string with (n ++ b)%string.
    destruct (n ++ b)%string eqn:E; cbn [JS.includes];
      rewrite <- E, prefix_app; reflexivity.
  - cbn [String.append JS.includes]. rewrite IH. apply orb_true_r.
Qed.

Lemma includes_noDot (s : string) :
  noDot s = true -> JS.includes ".fields." s = false.
Proof.
  induction s as [|c s IH]; [reflexivity|].
  unfold noDot. cbn [allChars]. rewrite andb_true_iff. intros [Hc Hs].
  cbn [JS.includes]. rewrite (IH Hs), orb_false_r.
  cbn [String.prefix].
  destruct (ascii_dec "." c) as [<-|]; [discriminate|reflexivity].
Qed.

Lemma prefix_fields_digits (s : string) :
  allChars isDigit s = true -> String.prefix "fields." s = false.
Proof.
  destruct s as [|c s]; [reflexivity|].
  cbn [allChars String.prefix]. rewrite andb_true_iff. intros [Hc _].
  destruct (ascii_dec "f" c) as [<-|]; [discriminate|reflexivity].
Qed.

Lemma split_noDot (a : string) : noDot a = true -> JS.split "." a = [a].
Proof.
  induction a as [|c a IH]; [reflexivity|].
  unfold noDot. cbn [allChars]. rewrite andb_true_iff. intros [Hc Ha].
  cbn [JS.split]. rewrite (IH Ha).
  now destruct (Ascii.eqb c ".").
Qed.

Lemma split_app (a b : string) :
  noDot a = true -> JS.split "." (a ++ String "." b)%string = a :: JS.split "." b.
Proof.
  induction a as [|c a IH]; [reflexivity|].
  unfold noDot. cbn [allChars]. rewrite andb_true_iff. intros [Hc Ha].
  cbn [String.append JS.split]. rewrite (IH Ha).
  now destruct (Ascii.eqb c ".").
Qed.

Lemma join_cons (x : string) (parts : list string) :
  parts <> [] -> JS.join "." (x :: parts) = (x ++ String "." (JS.join "." parts))%string.
Proof. destruct parts; [congruence|reflexivity]. Qed.

Lemma append_assoc (a b c : string) : ((a ++ b) ++ c = a ++ (b ++ c))%string.
Proof. induction a; simpl; congruence. Qed.

Lemma join_app (a b : list string) :
  a <> [] -> b <> [] ->
  JS.join "." (a ++ b) = (JS.join "." a ++ String "." (JS.join "." b))%string.
Proof.
  intros Ha Hb. induction a as [|x a IH]; [congruence|].
  destruct a as [|y a].
  - simpl app. now rewrite join_cons.
  - change ((x :: y :: a) ++ b) with (x :: ((y :: a) ++ b)).
    rewrite !join_cons by discriminate.
    rewrite IH by discriminate. now rewrite append_assoc.
Qed.

Lemma split_join (parts : list string) :
  parts <> [] -> Forall (fun p => noDot p = true) parts ->
  JS.split "." (JS.join "." parts) = parts.
Proof.
  intros Hne Hall. induction Hall as [|x parts Hx Hall IH]; [congruence|].
  destruct parts as [|y parts].
  - simpl. now apply split_noDot.
  - rewrite join_cons by discriminate.
    rewrite split_app by assumption. f_equal. apply IH. discriminate.
Qed.

End Strings.
(* ================================================================= *)
(** ** The paths [FieldRow] builds *)

Section Paths.

Lemma pathOf_snoc (idxs : list nat) (i : nat) :
  idxs <> [] -> pathOf (idxs ++ [i]) = childPath (pathOf idxs) i.
Proof.
  destruct idxs as [|j idxs]; [congruence|]. intros _.
  cbn [pathOf app]. now rewrite fold_left_app.
Qed.

Lemma segments_app (a b : list nat) : segments (a ++ b) = segments a ++ segments b.
Proof. unfold segments. now rewrite flat_map_app. Qed.

Lemma segments_nonempty (idxs : list nat) : idxs <> [] -> segments idxs <> [].
Proof. destruct idxs; [congruence|discriminate]. Qed.

Lemma segments_noDot (idxs : list nat) :
  Forall (fun p => noDot p = true) (segments idxs).
Proof.
  induction idxs as [|i idxs IH]; [constructor|].
  cbn [segments flat_map app]. constructor; [reflexivity|].
  constructor; [apply toString_noDot|exact IH].
Qed.

Lemma pathOf_join (idxs : list nat) :
  idxs <> [] -> pathOf idxs = JS.join "." (segments idxs).
Proof.
  induction idxs as [|i idxs IH] using rev_ind; [congruence|]. intros _.
  destruct idxs as [|j idxs].
  - reflexivity.
  - rewrite pathOf_snoc by discriminate.
    rewrite IH by discriminate.
    rewrite segments_app, join_app
      by (try apply segments_nonempty; discriminate).
    unfold childPath. reflexivity.
Qed.

Lemma pathOf_key (idxs : list nat) (key : string) :
  idxs <> [] ->
  (pathOf idxs ++ String "." key)%string = JS.join "." (segments idxs ++ [key]).
Proof.
  intros H. rewrite join_app by (try apply segments_nonempty; auto; discriminate).
  now rewrite pathOf_join.
Qed.

Lemma split_pathOf (idxs : list nat) :
  idxs <> [] -> JS.split "." (pathOf idxs) = segments idxs.
Proof.
  intros H. rewrite pathOf_join by assumption.
  apply split_join; [now apply segments_nonempty|apply segments_noDot].
Qed.

Lemma split_pathOf_key (idxs : list nat) (key : string) :
  idxs <> [] -> noDot key = true ->
  JS.split "." (pathOf idxs ++ String "." key) = segments idxs ++ [key].
Proof.
  intros H Hk. rewrite pathOf_key by assumption.
  apply split_join.
  - destruct (segments idxs); discriminate.
  - apply Forall_app. split; [apply segments_noDot|]. now constructor.
Qed.

Lemma target_step (i : nat) (rest : list string) (acc : list nat) :
  rest <> [] ->
  target ("fields" :: JS.toString i :: rest) acc = target rest (acc ++ [i]).
Proof.
  destruct rest as [|s l]; [congruence|]. intros _.
  change (target ("fields" :: JS.toString i :: s :: l) acc)
    with (match position (JS.toString i) with
          | Some n => target (s :: l) (acc ++ [n])
          | None => None
          end).
  now rewrite position_toString.
Qed.

Lemma target_fields (idxs acc : list nat) :
  target (segments idxs ++ ["fields"]) acc = Some (AtFields (acc ++ idxs)).
Proof.
  revert acc. induction idxs as [|i idxs IH]; intros acc.
  - cbn. now rewrite List.app_nil_r.
  - cbn [segments flat_map app]. fold (segments idxs).
    rewrite target_step by (destruct (segments idxs); discriminate).
    now rewrite IH, <- List.app_assoc.
Qed.

Lemma target_key (idxs acc : list nat) (key : string) :
  idxs <> [] -> key <> "fields" ->
  target (segments idxs ++ [key]) acc = Some (AtKey (acc ++ idxs) key).
Proof.
  intros Hne Hk. revert acc.
  induction idxs as [|i idxs IH]; intros acc; [congruence|].
  cbn [segments flat_map app]. fold (segments idxs).
  rewrite target_step by (destruct (segments idxs); discriminate).
  destruct idxs as [|j idxs].
  - cbn [segments flat_map app target].
    apply String.eqb_neq in Hk. rewrite Hk.
    destruct (acc ++ [i]) eqn:E; [now destruct acc|reflexivity].
  - now rewrite IH, <- List.app_assoc by discriminate.
Qed.

Lemma stringToPath_fields (idxs : list nat) :
  idxs <> [] ->
  stringToPath (pathOf idxs ++ ".fields") = Some (AtFields idxs).
Proof.
  intros H. unfold stringToPath.
  rewrite (split_pathOf_key idxs "fields") by auto.
  apply (target_fields idxs []).
Qed.

Lemma stringToPath_key (idxs : list nat) (key : string) :
  idxs <> [] -> noDot key = true -> key <> "fields" ->
  stringToPath (pathOf idxs ++ String "." key) = Some (AtKey idxs key).
Proof.
  intros H Hd Hk. unfold stringToPath.
  rewrite split_pathOf_key by auto.
  now apply (target_key idxs []).
Qed.

Lemma pathOf_nonempty (idxs : list nat) : idxs <> [] -> pathOf idxs <> "".
Proof.
  intros H. rewrite pathOf_join by assumption.
  destruct idxs as [|i idxs]; [congruence|].
  cbn [segments flat_map app]. rewrite join_cons by discriminate.
  discriminate.
Qed.

Lemma includes_root (i : nat) : JS.includes ".fields." (pathOf [i]) = false.
Proof.
  cbn [pathOf fold_left].
  assert (Hd := toString_digits i).
  cbn [String.append JS.includes String.prefix].
  repeat match goal with
         | |- context [ascii_dec ?a ?b] =>
             destruct (ascii_dec a b); [discriminate|]
         end.
  cbn [orb].
  destruct (ascii_dec "." "."); [|congruence].
  rewrite (includes_noDot _ (digits_noDot _ Hd)), orb_false_r.
  now apply prefix_fields_digits.
Qed.

Lemma includes_nested (pre : list nat) (i : nat) :
  pre <> [] -> JS.includes ".fields." (pathOf (pre ++ [i])) = true.
Proof.
  intros H. rewrite pathOf_snoc by assumption. unfold childPath.
  apply includes_app.
Qed.

End Paths.
(* ================================================================= *)
(** ** The form values under lookup and update *)

Section Store.

Lemma withFields_same (f : SchemaField) : withFields f (fields f) = f.
Proof. now destruct f. Qed.

Lemma nth_error_replaceAt_eq (i : nat) (f x : SchemaField) (l : list SchemaField) :
  nth_error l i = Some x -> nth_error (replaceAt i f l) i = Some f.
Proof.
  revert i. induction l as [|y l IH]; intros [|i]; simpl; try discriminate; auto.
Qed.

Lemma nth_error_replaceAt_neq (i j : nat) (f : SchemaField) (l : list SchemaField) :
  i <> j -> nth_error (replaceAt i f l) j = nth_error l j.
Proof.
  revert i j. induction l as [|y l IH]; intros [|i] [|j] H; simpl; auto.
  congruence.
Qed.

Lemma replaceAt_same (i : nat) (f : SchemaField) (l : list SchemaField) :
  nth_error l i = Some f -> replaceAt i f l = l.
Proof.
  revert i. induction l as [|y l IH]; intros [|i]; simpl; try discriminate.
  - congruence.
  - intros H. f_equal. auto.
Qed.

Lemma replaceAt_length (i : nat) (f : SchemaField) (l : list SchemaField) :
  List.length (replaceAt i f l) = List.length l.
Proof. revert i. induction l; intros [|i]; simpl; auto. Qed.

Lemma replaceAt_split (i : nat) (f x : SchemaField) (l : list SchemaField) :
  nth_error l i = Some x ->
  l = firstn i l ++ x :: skipn (S i) l
  /\ replaceAt i f l = firstn i l ++ f :: skipn (S i) l.
Proof.
  revert i. induction l as [|y l IH]; intros [|i]; simpl; try discriminate.
  - intros [= ->]. auto.
  - intros H. destruct (IH _ H) as [H1 H2]. split; f_equal; auto.
Qed.

Lemma lookupField_some_nonempty (idxs : list nat) (s : list SchemaField)
    (f : SchemaField) :
  lookupField idxs s = Some f -> idxs <> [].
Proof. destruct idxs; [discriminate|discriminate]. Qed.

(** The field an update writes is the image of the field a lookup reads. *)
Lemma updateField_lookup (idxs : list nat) (g : SchemaField -> SchemaField)
    (s : list SchemaField) (f : SchemaField) :
  lookupField idxs s = Some f ->
  exists s', updateField idxs g s = Some s'
             /\ lookupField idxs s' = Some (g f)
             /\ List.length s' = List.length s.
Proof.
  revert s. induction idxs as [|i rest IH]; intros s; [discriminate|].
  cbn [lookupField updateField].
  destruct (nth_error s i) as [x|] eqn:Hi; [|discriminate].
  destruct rest as [|j rest].
  - intros [= ->]. eexists. split; [reflexivity|].
    rewrite (nth_error_replaceAt_eq _ _ _ _ Hi), replaceAt_length. auto.
  - destruct (fields x) as [c|] eqn:Hc; [|discriminate].
    intros H. destruct (IH _ H) as (c' & Hu & Hl & _).
    rewrite Hu. eexists. split; [reflexivity|].
    rewrite (nth_error_replaceAt_eq _ _ _ _ Hi), replaceAt_length.
    cbn [fields withFields]. auto.
Qed.

Lemma updateField_none (idxs : list nat) (g : SchemaField -> SchemaField)
    (s : list SchemaField) :
  lookupField idxs s = None -> updateField idxs g s = None.
Proof.
  revert s. induction idxs as [|i rest IH]; intros s; [reflexivity|].
  cbn [lookupField updateField].
  destruct (nth_error s i) as [x|]; [|reflexivity].
  destruct rest as [|j rest]; [discriminate|].
  destruct (fields x) as [c|]; [|reflexivity].
  intros H. now rewrite (IH _ H).
Qed.

(** An update only looks at its function on the field it finds. *)
Lemma updateField_ext (idxs : list nat) (g g' : SchemaField -> SchemaField)
    (s : list SchemaField) (f : SchemaField) :
  lookupField idxs s = Some f -> g f = g' f ->
  updateField idxs g s = updateField idxs g' s.
Proof.
  revert s. induction idxs as [|i rest IH]; intros s; [discriminate|].
  cbn [lookupField updateField].
  destruct (nth_error s i) as [x|]; [|discriminate].
  destruct rest as [|j rest].
  - intros [= ->] ->. reflexivity.
  - destruct (fields x) as [c|]; [|discriminate].
    intros H Hg. now rewrite (IH _ H Hg).
Qed.

Lemma updateField_same (idxs : list nat) (g : SchemaField -> SchemaField)
    (s : list SchemaField) (f : SchemaField) :
  lookupField idxs s = Some f -> g f = f -> updateField idxs g s = Some s.
Proof.
  revert s. induction idxs as [|i rest IH]; intros s; [discriminate|].
  cbn [lookupField updateField].
  destruct (nth_error s i) as [x|] eqn:Hi; [|discriminate].
  destruct rest as [|j rest].
  - intros [= ->] ->. now rewrite replaceAt_same.
  - destruct (fields x) as [c|] eqn:Hc; [|discriminate].
    intros H Hg. rewrite (IH _ H Hg), <- Hc, withFields_same.
    now rewrite replaceAt_same.
Qed.

Lemma splice_index (A : Type) (i : nat) (l : list A) :
  JS.splice (JS.Num (Z.of_nat i)) 1 l = dropAt i l.
Proof.
  unfold JS.splice, dropAt. cbn [JS.toIntegerOrInfinity].
  destruct (Z.ltb_spec (Z.of_nat i) 0) as [H|_]; [lia|].
  destruct (Nat.lt_ge_cases i (List.length l)) as [Hlt|Hge].
  - replace (Z.to_nat (Z.min (Z.of_nat i) (Z.of_nat (List.length l)))) with i by lia.
    f_equal. f_equal. lia.
  - replace (Z.to_nat (Z.min (Z.of_nat i) (Z.of_nat (List.length l))))
      with (List.length l) by lia.
    rewrite !firstn_all2, !skipn_all2 by lia. reflexivity.
Qed.

Lemma splice_NaN (A : Type) (l : list A) : JS.splice JS.NaN 1 l = tl l.
Proof.
  unfold JS.splice. cbn [JS.toIntegerOrInfinity Z.ltb Z.compare].
  destruct l as [|x l]; [reflexivity|].
  replace (Z.min 0 (Z.of_nat (List.length (x :: l)))) with 0%Z by lia.
  replace (Z.min (Z.max 1 0) (Z.of_nat (List.length (x :: l)) - 0)) with 1%Z
    by (cbn [List.length]; lia).
  reflexivity.
Qed.

Lemma dropAt_out_of_bounds (A : Type) (i : nat) (l : list A) :
  List.length l <= i -> dropAt i l = l.
Proof.
  intros H. unfold dropAt.
  rewrite firstn_all2, skipn_all2 by lia. apply List.app_nil_r.
Qed.

Lemma nth_error_dropAt_before (A : Type) (i j : nat) (l : list A) :
  j < i -> nth_error (dropAt i l) j = nth_error l j.
Proof.
  revert i j. induction l as [|x l IH]; intros [|i] [|j] H; try lia.
  - reflexivity.
  - reflexivity.
  - reflexivity.
  - unfold dropAt in *. cbn. apply IH. lia.
Qed.

Lemma nth_error_dropAt_after (A : Type) (i j : nat) (l : list A) :
  i <= j -> nth_error (dropAt i l) j = nth_error l (S j).
Proof.
  revert i j. induction l as [|x l IH]; intros i j H.
  - unfold dropAt. rewrite firstn_nil, skipn_nil. now destruct j.
  - destruct i as [|i].
    + reflexivity.
    + destruct j as [|j]; [lia|].
      unfold dropAt in *. cbn. apply IH. lia.
Qed.

End Store.

(* ================================================================= *)
(** ** What the handlers do on a path [FieldRow] built *)

Section Handlers.

Lemma getValues_fields (pre : list nat) (s : SchemaFormValues) :
  pre <> [] ->
  getValues (pathOf pre ++ ".fields") s
  = Ok (match lookupField pre s with
        | Some f => fields f
        | None => None
        end, s).
Proof.
  intros H. unfold getValues. rewrite stringToPath_fields by assumption.
  destruct pre; [congruence|reflexivity].
Qed.

Lemma setValue_fields (pre : list nat) (v : list SchemaField)
    (s : SchemaFormValues) :
  pre <> [] ->
  setValue (pathOf pre ++ ".fields") v s
  = match updateField pre (fun f => withFields f (Some v)) s with
    | Some s' => Ok (tt, s')
    | None => OutOfModel
    end.
Proof.
  intros H. unfold setValue. rewrite stringToPath_fields by assumption.
  destruct pre; [congruence|reflexivity].
Qed.

(** Below the root, [removeField] splices position [i] out of the [fields]
    of the field at [pre]. *)
Lemma removeField_nested (pre : list nat) (i : nat) (s : SchemaFormValues) :
  pre <> [] ->
  removeField (pathOf (pre ++ [i])) s
  = match updateField pre
            (fun f => withFields f (Some (dropAt i (JS.orEmpty (fields f))))) s
    with
    | Some s' => Ok (tt, s')
    | None => OutOfModel
    end.
Proof.
  intros H. unfold removeField.
  rewrite includes_nested by assumption.
  rewrite split_pathOf by (destruct pre; discriminate).
  rewrite segments_app. cbn [segments flat_map app].
  replace (segments pre ++ ["fields"; JS.toString i])
    with ((segments pre ++ ["fields"]) ++ [JS.toString i])
    by now rewrite <- List.app_assoc.
  rewrite last_last, removelast_last, parseInt_toString.
  rewrite <- pathOf_key by assumption.
  unfold bind. rewrite getValues_fields by assumption.
  rewrite setValue_fields by assumption.
  rewrite splice_index.
  destruct (lookupField pre s) as [f|] eqn:Hf.
  - cbn [JS.orEmpty].
    now rewrite (updateField_ext pre
                   (fun f0 => withFields f0 (Some (dropAt i (JS.orEmpty (fields f)))))
                   (fun f0 => withFields f0 (Some (dropAt i (JS.orEmpty (fields f0)))))
                   s f Hf eq_refl).
  - now rewrite !updateField_none.
Qed.

(** At the root, [removeField] parses the whole path, gets NaN, and
    [remove] takes the first field out, whatever position the path names. *)
Lemma removeField_root (i : nat) (s : SchemaFormValues) :
  removeField (pathOf [i]) s = Ok (tt, tl s).
Proof.
  unfold removeField. rewrite includes_root.
  cbn [pathOf fold_left]. rewrite parseInt_root_path.
  unfold remove. now rewrite splice_NaN.
Qed.

Lemma addField_root (uuid : string) (s : SchemaFormValues) :
  addField uuid None s = Ok (None, s ++ [newField uuid]).
Proof. reflexivity. Qed.

Lemma addField_nested (uuid : string) (pre : list nat) (s : SchemaFormValues) :
  pre <> [] ->
  addField uuid (Some (pathOf pre)) s
  = match updateField pre
            (fun f => withFields f
                        (Some (JS.orEmpty (fields f) ++ [newField uuid]))) s
    with
    | Some s' => Ok (None, s')
    | None => OutOfModel
    end.
Proof.
  intros H. unfold addField.
  assert (Ht : truthy (Some (pathOf pre)) = Some (pathOf pre)).
  { pose proof (pathOf_nonempty pre H). now destruct (pathOf pre). }
  rewrite Ht. unfold bind. rewrite getValues_fields by assumption.
  rewrite setValue_fields by assumption.
  destruct (lookupField pre s) as [f|] eqn:Hf.
  - rewrite (updateField_ext pre
               (fun f0 => withFields f0
                            (Some (JS.orEmpty (fields f) ++ [newField uuid])))
               (fun f0 => withFields f0
                            (Some (JS.orEmpty (fields f0) ++ [newField uuid])))
               s f Hf eq_refl).
    now destruct (updateField pre _ s).
  - now rewrite !updateField_none.
Qed.

Lemma setFieldType_at (idxs : list nat) (t : SchemaFieldType)
    (s : SchemaFormValues) :
  idxs <> [] ->
  setFieldType (pathOf idxs) t s
  = match updateField idxs (fun f => withType f t) s with
    | Some s' => Ok (tt, s')
    | None => OutOfModel
    end.
Proof.
  intros H. unfold setFieldType, onChange.
  now rewrite (stringToPath_key idxs "type") by (auto; discriminate).
Qed.

Lemma setFieldName_at (idxs : list nat) (text : string)
    (s : SchemaFormValues) :
  idxs <> [] ->
  setFieldName (pathOf idxs) text s
  = match updateField idxs (fun f => withName f text) s with
    | Some s' => Ok (tt, s')
    | None => OutOfModel
    end.
Proof.
  intros H. unfold setFieldName, onChange.
  now rewrite (stringToPath_key idxs "name") by (auto; discriminate).
Qed.

End Handlers.
(* ================================================================= *)
(** ** Objects: lookup, keys and their order *)

Section Objects.

Lemma getProperty_define_eq (k : string) (v : JS.value) (o : list (string * JS.value)) :
  JS.getProperty k (JS.defineProperty k v o) = Some v.
Proof.
  induction o as [|[k' v'] o IH]; cbn [JS.defineProperty JS.getProperty].
  - now rewrite String.eqb_refl.
  - destruct (String.eqb_spec k k') as [<-|Hne].
    + cbn [JS.getProperty]. now rewrite String.eqb_refl.
    + destruct (JS.precedes k k'); cbn [JS.getProperty].
      * now rewrite String.eqb_refl.
      * apply String.eqb_neq in Hne. now rewrite Hne.
Qed.

Lemma getProperty_define_neq (k k0 : string) (v : JS.value)
    (o : list (string * JS.value)) :
  k0 <> k -> JS.getProperty k0 (JS.defineProperty k v o) = JS.getProperty k0 o.
Proof.
  intros Hne. apply String.eqb_neq in Hne.
  induction o as [|[k' v'] o IH]; cbn [JS.defineProperty JS.getProperty].
  - now rewrite Hne.
  - destruct (String.eqb_spec k k') as [<-|Hne'].
    + cbn [JS.getProperty]. now rewrite Hne.
    + destruct (JS.precedes k k'); cbn [JS.getProperty].
      * now rewrite Hne.
      * now rewrite IH.
Qed.

Lemma keys_define_in (k k0 : string) (v : JS.value) (o : list (string * JS.value)) :
  In k0 (JS.keys (JS.defineProperty k v o)) <-> k0 = k \/ In k0 (JS.keys o).
Proof.
  induction o as [|[k' v'] o IH]; cbn [JS.defineProperty JS.keys map fst In].
  - intuition congruence.
  - destruct (String.eqb_spec k k') as [<-|Hne].
    + cbn [map fst In]. intuition congruence.
    + destruct (JS.precedes k k'); cbn [map fst In].
      * intuition congruence.
      * fold (JS.keys (JS.defineProperty k v o)). fold (JS.keys o).
        rewrite IH. intuition congruence.
Qed.

Lemma arrayIndex_isArrayIndex (k : string) :
  isArrayIndex k = false -> forall k', JS.precedes k k' = false.
Proof.
  unfold isArrayIndex, JS.precedes. intros H k'.
  now destruct (JS.arrayIndex k).
Qed.

(** A key that is no array index goes to the end, unless it is there. *)
Lemma keys_define_string (k : string) (v : JS.value) (o : list (string * JS.value)) :
  isArrayIndex k = false ->
  JS.keys (JS.defineProperty k v o)
  = if existsb (String.eqb k) (JS.keys o) then JS.keys o else JS.keys o ++ [k].
Proof.
  intros Hk. induction o as [|[k' v'] o IH];
    cbn [JS.defineProperty JS.keys map fst existsb]; [reflexivity|].
  rewrite (arrayIndex_isArrayIndex k Hk k').
  destruct (String.eqb k k'); [reflexivity|].
  cbn [map fst orb]. fold (JS.keys (JS.defineProperty k v o)). fold (JS.keys o).
  rewrite IH. now destruct (existsb (String.eqb k) (JS.keys o)).
Qed.

(** A key that is an array index leaves the other keys where they are. *)
Lemma keys_define_index (k : string) (v : JS.value) (o : list (string * JS.value)) :
  isArrayIndex k = true ->
  filter (fun k => negb (isArrayIndex k)) (JS.keys (JS.defineProperty k v o))
  = filter (fun k => negb (isArrayIndex k)) (JS.keys o).
Proof.
  intros Hk. induction o as [|[k' v'] o IH];
    cbn [JS.defineProperty JS.keys map fst filter].
  - now rewrite Hk.
  - destruct (String.eqb k k'); [reflexivity|].
    destruct (JS.precedes k k'); cbn [map fst filter].
    + now rewrite Hk.
    + fold (JS.keys (JS.defineProperty k v o)). fold (JS.keys o).
      now rewrite IH.
Qed.

Lemma arrayIndex_toString (k : string) (n : N) :
  JS.arrayIndex k = Some n -> k = NilEmpty.string_of_uint (N.to_uint n).
Proof.
  unfold JS.arrayIndex. destruct (NilEmpty.uint_of_string k) as [d|]; [|discriminate].
  destruct (String.eqb_spec (NilEmpty.string_of_uint (N.to_uint (N.of_uint d))) k)
    as [E|]; [|discriminate].
  destruct (N.of_uint d <? 4294967295)%N; [|discriminate].
  intros [= <-]. now symmetry.
Qed.

Lemma precedes_trans_insert (k k1 k' : string) :
  JS.precedes k k1 = true -> JS.precedes k' k1 = false ->
  JS.precedes k' k = false.
Proof.
  unfold JS.precedes.
  destruct (JS.arrayIndex k) as [i|]; [|discriminate].
  destruct (JS.arrayIndex k') as [j'|]; [|reflexivity].
  destruct (JS.arrayIndex k1) as [j|]; [|discriminate].
  rewrite !N.ltb_lt, !N.ltb_ge. lia.
Qed.

Lemma precedes_asym (k k1 : string) :
  JS.precedes k k1 = true -> JS.precedes k1 k = false.
Proof.
  unfold JS.precedes.
  destruct (JS.arrayIndex k) as [i|]; [|discriminate].
  destruct (JS.arrayIndex k1) as [j|]; [|reflexivity].
  rewrite !N.ltb_lt, !N.ltb_ge. lia.
Qed.

Lemma enumerated_define (k : string) (v : JS.value) (o : list (string * JS.value)) :
  enumerated (JS.keys o) -> enumerated (JS.keys (JS.defineProperty k v o)).
Proof.
  unfold enumerated.
  induction o as [|[k1 v1] o IH]; cbn [JS.defineProperty JS.keys map fst].
  - intros _. split; repeat constructor. intros [].
  - fold (JS.keys o). intros [Hs Hn].
    inversion Hs as [|? ? Hs' Hall]; subst. inversion Hn as [|? ? Hnin Hn']; subst.
    destruct (String.eqb_spec k k1) as [<-|Hne]; [now split|].
    destruct (JS.precedes k k1) eqn:Hp; cbn [map fst]; fold (JS.keys o).
    + split.
      * constructor; [assumption|].
        constructor; [now apply precedes_asym|].
        rewrite Forall_forall in Hall |- *. intros k' Hk'.
        eapply precedes_trans_insert; eauto.
      * constructor; [|assumption].
        intros [E|Hin]; [congruence|].
        rewrite Forall_forall in Hall. specialize (Hall _ Hin). congruence.
    + fold (JS.keys (JS.defineProperty k v o)).
      destruct (IH (conj Hs' Hn')) as [IHs IHn]. split.
      * constructor; [assumption|].
        rewrite Forall_forall in Hall |- *. intros k' Hk'.
        apply keys_define_in in Hk'. destruct Hk' as [->|Hk']; auto.
      * constructor; [|assumption].
        rewrite keys_define_in. intros [E|Hin]; congruence.
Qed.

(** In enumeration order the array indices come first. *)
Lemma enumerated_indices_first (ks : list string) :
  enumerated ks ->
  ks = filter isArrayIndex ks ++ filter (fun k => negb (isArrayIndex k)) ks.
Proof.
  intros [Hs _]. induction Hs as [|k ks Hs IH Hall]; [reflexivity|].
  cbn [filter]. destruct (isArrayIndex k) eqn:Hk; cbn [negb app].
  - now rewrite <- IH.
  - assert (Hnone : forall k', In k' ks -> isArrayIndex k' = false).
    { rewrite Forall_forall in Hall. intros k' Hin. specialize (Hall _ Hin).
      unfold JS.precedes, isArrayIndex in *.
      destruct (JS.arrayIndex k'); [|reflexivity].
      now destruct (JS.arrayIndex k). }
    clear IH Hall Hs.
    assert (E1 : filter isArrayIndex ks = []).
    { induction ks as [|x ks IHk]; [reflexivity|]. cbn [filter].
      rewrite (Hnone x) by now left. apply IHk. intros; apply Hnone; now right. }
    assert (E2 : filter (fun k => negb (isArrayIndex k)) ks = ks).
    { induction ks as [|x ks IHk]; [reflexivity|]. cbn [filter].
      rewrite (Hnone x) by now left. cbn [negb]. f_equal.
      - apply IHk. intros; apply Hnone; now right.
        cbn [filter] in E1. rewrite (Hnone x) in E1 by now left. exact E1. }
    now rewrite E1, E2.
Qed.

(** In enumeration order the array indices ascend. *)
Lemma enumerated_indices_ascend (ks : list string) :
  enumerated ks ->
  Sorted.StronglySorted (fun k k' => JS.precedes k k' = true)
    (filter isArrayIndex ks).
Proof.
  intros [Hs Hn]. induction Hs as [|k ks Hs IH Hall]; [constructor|].
  inversion Hn as [|? ? Hnin Hn']; subst.
  cbn [filter]. destruct (isArrayIndex k) eqn:Hk; [|auto].
  constructor; [auto|].
  rewrite Forall_forall in Hall |- *. intros k' Hin.
  apply filter_In in Hin. destruct Hin as [Hin Hk'].
  specialize (Hall _ Hin).
  assert (Hne : k <> k') by congruence.
  unfold JS.precedes, isArrayIndex in *.
  destruct (JS.arrayIndex k) as [i|] eqn:Ei; [|discriminate].
  destruct (JS.arrayIndex k') as [j|] eqn:Ej; [|discriminate].
  apply N.ltb_ge in Hall. apply N.ltb_lt.
  assert (i <> j).
  { intros ->. apply arrayIndex_toString in Ei, Ej. congruence. }
  lia.
Qed.

Lemma filter_snoc (A : Type) (p : A -> bool) (l : list A) (x : A) :
  filter p (l ++ [x]) = filter p l ++ (if p x then [x] else []).
Proof. rewrite filter_app. reflexivity. Qed.

Lemma firstOccurrences_snoc (l : list string) (x : string) :
  firstOccurrences (l ++ [x])
  = if existsb (String.eqb x) l then firstOccurrences l
    else firstOccurrences l ++ [x].
Proof.
  induction l as [|y l IH]; [reflexivity|].
  cbn [app firstOccurrences existsb]. rewrite IH.
  destruct (String.eqb_spec x y) as [->|Hne]; cbn [orb].
  - destruct (existsb (String.eqb y) l); [reflexivity|].
    rewrite filter_snoc, String.eqb_refl. cbn [negb]. now rewrite List.app_nil_r.
  - destruct (existsb (String.eqb x) l); [reflexivity|].
    rewrite filter_snoc. apply String.eqb_neq in Hne. rewrite Hne. reflexivity.
Qed.

Lemma existsb_eqb_in (x : string) (l : list string) :
  existsb (String.eqb x) l = true <-> In x l.
Proof.
  rewrite existsb_exists. split.
  - intros (y & Hin & E). apply String.eqb_eq in E. now subst.
  - intros H. exists x. split; [assumption|apply String.eqb_refl].
Qed.

Lemma existsb_eqb_ext (x : string) (l l' : list string) :
  (In x l <-> In x l') ->
  existsb (String.eqb x) l = existsb (String.eqb x) l'.
Proof.
  intros H. apply eq_true_iff_eq. now rewrite !existsb_eqb_in.
Qed.

End Objects.
(* ================================================================= *)
(** ** The projection *)

Section Projection.

Lemma generateSchema_fold (fs : list SchemaField) :
  generateSchema fs = JS.VObject (fold_left schemaStep fs []).
Proof. reflexivity. Qed.

(** The [switch] of [generateSchema], with the recursive call folded. *)
Lemma fieldValue_eq (f : SchemaField) :
  fieldValue f
  = match type f with
    | TString => JS.VString "string"
    | TNumber => JS.VString "number"
    | TNested =>
        match fields f with
        | Some children => generateSchema children
        | None => JS.VObject []
        end
    end.
Proof. destruct f as [i n [] [c|]]; reflexivity. Qed.

Lemma generateSchema_snoc (fs : list SchemaField) (f : SchemaField) :
  properties (generateSchema (fs ++ [f]))
  = JS.defineProperty (name f) (fieldValue f) (properties (generateSchema fs)).
Proof.
  rewrite !generateSchema_fold. cbn [properties].
  now rewrite fold_left_app.
Qed.

Lemma lastNamed_snoc (k : string) (fs : list SchemaField) (f : SchemaField) :
  lastNamed k (fs ++ [f])
  = if (name f =? k)%string then Some f else lastNamed k fs.
Proof. unfold lastNamed. now rewrite rev_unit. Qed.

Lemma generateSchema_get (k : string) (fs : list SchemaField) :
  JS.getProperty k (properties (generateSchema fs))
  = option_map fieldValue (lastNamed k fs).
Proof.
  induction fs as [|f fs IH] using rev_ind; [reflexivity|].
  rewrite generateSchema_snoc, lastNamed_snoc.
  destruct (String.eqb_spec (name f) k) as [<-|Hne].
  - apply getProperty_define_eq.
  - rewrite getProperty_define_neq by congruence. exact IH.
Qed.

Lemma generateSchema_keys_in (k : string) (fs : list SchemaField) :
  In k (JS.keys (properties (generateSchema fs))) <-> In k (map name fs).
Proof.
  induction fs as [|f fs IH] using rev_ind; [reflexivity|].
  rewrite generateSchema_snoc, keys_define_in, map_app, in_app_iff, IH.
  cbn [map In]. intuition congruence.
Qed.

Lemma generateSchema_enumerated (fs : list SchemaField) :
  enumerated (JS.keys (properties (generateSchema fs))).
Proof.
  induction fs as [|f fs IH] using rev_ind.
  - split; constructor.
  - rewrite generateSchema_snoc. now apply enumerated_define.
Qed.

Lemma generateSchema_string_keys (fs : list SchemaField) :
  filter (fun k => negb (isArrayIndex k))
    (JS.keys (properties (generateSchema fs)))
  = firstOccurrences (filter (fun k => negb (isArrayIndex k)) (map name fs)).
Proof.
  induction fs as [|f fs IH] using rev_ind; [reflexivity|].
  rewrite generateSchema_snoc, map_app. cbn [map]. rewrite filter_snoc.
  destruct (isArrayIndex (name f)) eqn:Hk; cbn [negb].
  - rewrite keys_define_index by assumption. now rewrite List.app_nil_r.
  - rewrite keys_define_string by assumption.
    rewrite firstOccurrences_snoc, <- IH.
    rewrite (existsb_eqb_ext (name f)
               (filter (fun k => negb (isArrayIndex k)) (map name fs))
               (JS.keys (properties (generateSchema fs)))).
    + destruct (existsb (String.eqb (name f))
                  (JS.keys (properties (generateSchema fs)))); [reflexivity|].
      rewrite filter_snoc, Hk. reflexivity.
    + rewrite filter_In, generateSchema_keys_in, Hk. cbn [negb]. intuition.
Qed.

(** The projection reads a field through its name and its value only. *)
Lemma generateSchema_ext (l l' : list SchemaField) :
  map (fun f => (name f, fieldValue f)) l = map (fun f => (name f, fieldValue f)) l' ->
  generateSchema l = generateSchema l'.
Proof.
  intros H. rewrite !generateSchema_fold. f_equal.
  assert (G : forall l acc,
             fold_left schemaStep l acc
             = fold_left (fun acc p => JS.defineProperty (fst p) (snd p) acc)
                 (map (fun f => (name f, fieldValue f)) l) acc).
  { clear. induction l as [|f l IH]; intros acc; [reflexivity|].
    cbn [map fold_left]. now rewrite IH. }
  now rewrite !G, H.
Qed.

Lemma map_replaceAt_same (B : Type) (h : SchemaField -> B) (i : nat)
    (x y : SchemaField) (l : list SchemaField) :
  nth_error l i = Some x -> h y = h x -> map h (replaceAt i y l) = map h l.
Proof.
  revert i. induction l as [|z l IH]; intros [|i]; cbn; try discriminate.
  - intros [= ->] ->. reflexivity.
  - intros H E. f_equal. now apply IH.
Qed.

(** An update that keeps the name and the value of the field it finds
    keeps the projection of the whole tree. *)
Lemma updateField_schema (idxs : list nat) (g : SchemaField -> SchemaField)
    (s s' : list SchemaField) (f : SchemaField) :
  lookupField idxs s = Some f -> updateField idxs g s = Some s' ->
  name (g f) = name f -> fieldValue (g f) = fieldValue f ->
  generateSchema s' = generateSchema s.
Proof.
  intros Hl Hu Hn Hv. revert s s' Hl Hu.
  induction idxs as [|i rest IH]; intros s s'; [discriminate|].
  cbn [lookupField updateField].
  destruct (nth_error s i) as [x|] eqn:Hi; [|discriminate].
  destruct rest as [|j rest].
  - intros [= ->] [= <-]. apply generateSchema_ext.
    apply (map_replaceAt_same _ _ _ f); [assumption|congruence].
  - destruct (fields x) as [c|] eqn:Hc; [|discriminate].
    intros Hl. destruct (updateField (j :: rest) g c) as [c'|] eqn:Hu; [|discriminate].
    intros [= <-]. apply generateSchema_ext.
    apply (map_replaceAt_same _ _ _ x); [assumption|].
    f_equal. rewrite !fieldValue_eq. cbn [type fields withFields].
    rewrite Hc, (IH c c' Hl Hu). reflexivity.
Qed.

End Projection.
(* ================================================================= *)
(** ** Ids *)

Section Ids.

Lemma ids_app (a b : list SchemaField) : ids (a ++ b) = ids a ++ ids b.
Proof. apply flat_map_app. Qed.

Lemma fieldIds_eq (f : SchemaField) : fieldIds f = id f :: childIds f.
Proof. destruct f as [i n t [c|]]; reflexivity. Qed.

Lemma ids_split (i : nat) (x : SchemaField) (l : list SchemaField) :
  nth_error l i = Some x ->
  ids l = ids (firstn i l) ++ fieldIds x ++ ids (skipn (S i) l).
Proof.
  intros H. destruct (replaceAt_split i x x l H) as [E _].
  rewrite E at 1. rewrite ids_app. reflexivity.
Qed.

Lemma ids_replaceAt (i : nat) (x y : SchemaField) (l : list SchemaField) :
  nth_error l i = Some x ->
  ids (replaceAt i y l) = ids (firstn i l) ++ fieldIds y ++ ids (skipn (S i) l).
Proof.
  intros H. destruct (replaceAt_split i y x l H) as [_ E].
  rewrite E, ids_app. reflexivity.
Qed.

(** An update rewrites the ids of the field it finds and no other. *)
Lemma ids_update (idxs : list nat) (g : SchemaField -> SchemaField)
    (s s' : list SchemaField) (f : SchemaField) :
  lookupField idxs s = Some f -> updateField idxs g s = Some s' ->
  exists l1 l2, ids s = l1 ++ fieldIds f ++ l2
                /\ ids s' = l1 ++ fieldIds (g f) ++ l2.
Proof.
  revert s s'. induction idxs as [|i rest IH]; intros s s'; [discriminate|].
  cbn [lookupField updateField].
  destruct (nth_error s i) as [x|] eqn:Hi; [|discriminate].
  destruct rest as [|j rest].
  - intros [= ->] [= <-].
    exists (ids (firstn i s)), (ids (skipn (S i) s)).
    split; [now apply ids_split|now apply (ids_replaceAt i f)].
  - destruct (fields x) as [c|] eqn:Hc; [|discriminate].
    intros Hl. destruct (updateField (j :: rest) g c) as [c'|] eqn:Hu; [|discriminate].
    intros [= <-]. destruct (IH c c' Hl Hu) as (l1 & l2 & E1 & E2).
    exists (ids (firstn i s) ++ id x :: l1), (l2 ++ ids (skipn (S i) s)).
    rewrite (ids_split i x s Hi), (ids_replaceAt i x _ s Hi).
    rewrite (fieldIds_eq x), (fieldIds_eq (withFields x (Some c'))).
    unfold childIds. cbn [fields withFields id]. rewrite Hc, E1, E2.
    rewrite <- !List.app_assoc. cbn [app].
    rewrite <- !List.app_assoc. cbn [app]. auto.
Qed.

Lemma removed_NoDup (l l' : list string) : removed l l' -> NoDup l -> NoDup l'.
Proof.
  intros (a & b & c & -> & ->) H.
  rewrite List.app_assoc in H.
  apply NoDup_app_remove_r in H as Ha.
  rewrite <- List.app_assoc in H. apply NoDup_app_remove_l in H as Hbc.
  apply NoDup_app_remove_l in Hbc as Hc.
  apply NoDup_app; auto.
  - eapply NoDup_app_remove_r. exact Ha.
  - intros x Hxa Hxc.
    rewrite List.app_assoc in H.
    revert Hxa Hxc. clear -H. revert x.
    induction a as [|y a IH]; intros x; [intros []|].
    cbn [app] in H. inversion H as [|? ? Hn Hd]; subst.
    intros [->|Hin] Hc.
    + apply Hn. rewrite !in_app_iff. auto.
    + now apply (IH Hd x).
Qed.

Lemma removed_incl (l l' : list string) : removed l l' -> incl l' l.
Proof.
  intros (a & b & c & -> & ->) x. rewrite !in_app_iff. tauto.
Qed.

Lemma removed_context (l l' p q : list string) :
  removed l l' -> removed (p ++ l ++ q) (p ++ l' ++ q).
Proof.
  intros (a & b & c & -> & ->). exists (p ++ a), b, (c ++ q).
  now rewrite <- !List.app_assoc.
Qed.

Lemma removed_cons (x : string) (l l' : list string) :
  removed l l' -> removed (x :: l) (x :: l').
Proof. intros (a & b & c & -> & ->). exists (x :: a), b, c. auto. Qed.

Lemma ids_dropAt (i : nat) (l : list SchemaField) :
  removed (ids l) (ids (dropAt i l)).
Proof.
  unfold dropAt. destruct (nth_error l i) as [x|] eqn:Hi.
  - exists (ids (firstn i l)), (fieldIds x), (ids (skipn (S i) l)).
    split; [now apply ids_split|apply ids_app].
  - apply nth_error_None in Hi.
    exists (ids l), [], []. split; [now rewrite !List.app_nil_r|].
    rewrite firstn_all2, skipn_all2 by lia. now rewrite !List.app_nil_r.
Qed.

End Ids.
(* ================================================================= *)
(** ** The handlers on any argument *)

Section AnyPath.

Lemma splice_one (A : Type) (n : JS.number) (l : list A) :
  exists k, JS.splice n 1 l = dropAt k l.
Proof.
  unfold JS.splice, dropAt.
  set (len := Z.of_nat (List.length l)).
  set (start := if (JS.toIntegerOrInfinity n <? 0)%Z
                then Z.max (len + JS.toIntegerOrInfinity n) 0
                else Z.min (JS.toIntegerOrInfinity n) len).
  assert (Hs : (0 <= start <= len)%Z).
  { subst start len. destruct (JS.toIntegerOrInfinity n <? 0)%Z eqn:E.
    - apply Z.ltb_lt in E. lia.
    - apply Z.ltb_ge in E. lia. }
  exists (Z.to_nat start).
  destruct (Z.eq_dec start len) as [E|E].
  - replace (Z.to_nat (start + Z.min (Z.max 1 0) (len - start)))
      with (List.length l) by lia.
    replace (Z.to_nat start) with (List.length l) by lia.
    now rewrite !skipn_all2 by lia.
  - replace (Z.to_nat (start + Z.min (Z.max 1 0) (len - start)))
      with (S (Z.to_nat start)) by lia.
    reflexivity.
Qed.

(** Whatever its argument, a call of [removeField] that stays in the
    model splices one position out of the root or out of the [fields] of
    one field. *)
Lemma removeField_any (path : string) (s s' : SchemaFormValues) (r : unit) :
  removeField path s = Ok (r, s') ->
  (exists k, s' = dropAt k s)
  \/ (exists idxs f k,
        lookupField idxs s = Some f
        /\ updateField idxs
             (fun f => withFields f (Some (dropAt k (JS.orEmpty (fields f))))) s
           = Some s').
Proof.
  destruct r. unfold removeField.
  destruct (JS.includes ".fields." path).
  - unfold bind, getValues, setValue.
    destruct (stringToPath (JS.join "." (removelast (JS.split "." path))))
      as [[[|i rest]|]|]; try discriminate.
    + cbn [JS.orEmpty]. intros [= E]. left. rewrite <- E. apply splice_one.
    + destruct (lookupField (i :: rest) s) as [f|] eqn:Hf.
      * destruct (splice_one _ (JS.parseInt (last (JS.split "." path) "undefined"))
                    (JS.orEmpty (fields f))) as [k Hk].
        rewrite Hk.
        rewrite (updateField_ext (i :: rest)
                   (fun f0 => withFields f0 (Some (dropAt k (JS.orEmpty (fields f)))))
                   (fun f0 => withFields f0 (Some (dropAt k (JS.orEmpty (fields f0)))))
                   s f Hf eq_refl).
        destruct (updateField (i :: rest) _ s) as [s1|] eqn:Hu; [|discriminate].
        intros [= <-]. right. exists (i :: rest), f, k. auto.
      * now rewrite updateField_none.
  - unfold remove. intros [= E]. left. rewrite <- E. apply splice_one.
Qed.

(** Whatever its argument, a call of [addField] that stays in the model
    returns undefined and appends the new field to the root or to the
    [fields] of one field. *)
Lemma addField_any (uuid : string) (parentPath : option string)
    (s s' : SchemaFormValues) (r : option string) :
  addField uuid parentPath s = Ok (r, s') ->
  r = None
  /\ (s' = s ++ [newField uuid]
      \/ exists idxs f,
           lookupField idxs s = Some f
           /\ updateField idxs
                (fun f => withFields f
                            (Some (JS.orEmpty (fields f) ++ [newField uuid]))) s
              = Some s').
Proof.
  unfold addField.
  destruct (truthy parentPath) as [p|].
  - unfold bind, getValues, setValue, ret.
    destruct (stringToPath (p ++ ".fields")) as [[[|i rest]|]|]; try discriminate.
    + cbn [JS.orEmpty]. intros [= <- <-]. auto.
    + destruct (lookupField (i :: rest) s) as [f|] eqn:Hf.
      * rewrite (updateField_ext (i :: rest)
                   (fun f0 => withFields f0
                                (Some (JS.orEmpty (fields f) ++ [newField uuid])))
                   (fun f0 => withFields f0
                                (Some (JS.orEmpty (fields f0) ++ [newField uuid])))
                   s f Hf eq_refl).
        destruct (updateField (i :: rest) _ s) as [s1|] eqn:Hu; [|discriminate].
        intros [= <- <-]. split; [reflexivity|]. right. exists (i :: rest), f. auto.
      * now rewrite updateField_none.
  - unfold bind, append, ret. intros [= <- <-]. auto.
Qed.

Lemma removeField_ids (path : string) (s s' : SchemaFormValues) (r : unit) :
  removeField path s = Ok (r, s') -> removed (ids s) (ids s').
Proof.
  intros H. apply removeField_any in H.
  destruct H as [[k ->]|(idxs & f & k & Hl & Hu)].
  - apply ids_dropAt.
  - destruct (ids_update _ _ _ _ _ Hl Hu) as (l1 & l2 & -> & ->).
    apply removed_context. rewrite !fieldIds_eq.
    cbn [id withFields]. apply removed_cons.
    unfold childIds. cbn [fields withFields].
    destruct (fields f) as [c|]; cbn [JS.orEmpty].
    + apply ids_dropAt.
    + apply (ids_dropAt k []).
Qed.

Lemma addField_ids (uuid : string) (parentPath : option string)
    (s s' : SchemaFormValues) (r : option string) :
  addField uuid parentPath s = Ok (r, s') ->
  exists l1 l2, ids s = l1 ++ l2 /\ ids s' = l1 ++ uuid :: l2.
Proof.
  intros H. apply addField_any in H.
  destruct H as [_ [->|(idxs & f & Hl & Hu)]].
  - exists (ids s), []. rewrite ids_app, List.app_nil_r. auto.
  - destruct (ids_update _ _ _ _ _ Hl Hu) as (l1 & l2 & -> & ->).
    exists (l1 ++ fieldIds f), l2. rewrite <- List.app_assoc. split; [reflexivity|].
    rewrite (fieldIds_eq (withFields _ _)), (fieldIds_eq f).
    unfold childIds. cbn [fields withFields id].
    rewrite ids_app.
    change (ids [newField uuid]) with [uuid].
    destruct (fields f) as [c|]; cbn [JS.orEmpty ids flat_map app];
      rewrite <- ?List.app_assoc; reflexivity.
Qed.

(** A run that stays in the model keeps the ids apart, when the ids it
    draws are new and apart. *)
Lemma run_ids (ops : list Op) (s s' : SchemaFormValues) :
  exec (run ops) s = Some s' ->
  NoDup (ids s ++ drawn ops) ->
  NoDup (ids s') /\ incl (ids s') (ids s ++ drawn ops).
Proof.
  revert s. induction ops as [|o ops IH]; intros s.
  - cbn. intros [= <-]. rewrite List.app_nil_r. split; [assumption|apply incl_refl].
  - unfold exec. cbn [run]. unfold bind at 1.
    destruct (step o s) as [[[] s1]|] eqn:Hs; [|discriminate].
    intros Hrun Hnd.
    assert (Hexec : exec (run ops) s1 = Some s') by exact Hrun.
    destruct o as [u pp|path]; cbn [step drawn flat_map] in *.
    + unfold bind, ret in Hs.
      destruct (addField u pp s) as [[r s2]|] eqn:Ha; [|discriminate].
      injection Hs as <-.
      destruct (addField_ids _ _ _ _ _ Ha) as (l1 & l2 & E1 & E2).
      fold (drawn ops) in *.
      assert (Hp : Permutation (ids s ++ [u] ++ drawn ops) (ids s2 ++ drawn ops)).
      { rewrite E1, E2. rewrite <- !List.app_assoc. cbn [app].
        apply Permutation_app_head. symmetry.
        apply Permutation_middle. }
      destruct (IH s2 Hexec (Permutation_NoDup Hp Hnd)) as [H1 H2].
      split; [assumption|].
      intros x Hx. apply (Permutation_in x (Permutation_sym Hp)). auto.
    + fold (drawn ops) in *. cbn [app] in *.
      pose proof (removeField_ids _ _ _ _ Hs) as Hr.
      pose proof (removed_context _ _ [] (drawn ops) Hr) as Hr'. cbn [app] in Hr'.
      destruct (IH s1 Hexec (removed_NoDup _ _ Hr' Hnd)) as [H1 H2].
      split; [assumption|].
      intros x Hx. apply (removed_incl _ _ Hr'). auto.
Qed.

End AnyPath.

(* ================================================================= *)
(** ** The rows on the screen *)

Section Rows.

Lemma SchemaField_induction (P : SchemaField -> Prop) :
  (forall i n t, P (mkSchemaField i n t None)) ->
  (forall i n t l, Forall P l -> P (mkSchemaField i n t (Some l))) ->
  forall f, P f.
Proof.
  intros Hn Hs. fix IH 1. intros [i n t [l|]]; [|apply Hn].
  apply Hs. induction l as [|x l IHl]; constructor; [apply IH|exact IHl].
Qed.

Lemma FieldRow_eq (path : string) (f : SchemaField) :
  FieldRow path f
  = mkRow path f (isNested (type f))
    :: match type f with
       | TNested =>
           match fields f with
           | Some c => nestedRows path 0 c
           | None => []
           end
       | _ => []
       end.
Proof.
  destruct f as [i n [] [c|]]; try reflexivity.
  cbn [FieldRow type fields isNested]. f_equal.
  generalize 0. induction c as [|x c IH]; intros k; [reflexivity|].
  cbn [nestedRows]. now rewrite <- IH.
Qed.

Lemma nestedRows_in (path : string) (k : nat) (l : list SchemaField) (r : Row) :
  In r (nestedRows path k l) ->
  exists j x, nth_error l j = Some x
              /\ In r (FieldRow (childPath path (k + j)) x).
Proof.
  revert k. induction l as [|x l IH]; intros k; [intros []|].
  cbn [nestedRows]. rewrite in_app_iff. intros [H|H].
  - exists 0, x. now rewrite Nat.add_0_r.
  - destruct (IH _ H) as (j & y & Hj & Hr).
    exists (S j), y. now rewrite Nat.add_succ_r.
Qed.

Lemma rootRows_in (k : nat) (l : list SchemaField) (r : Row) :
  In r (rootRows k l) ->
  exists j x, nth_error l j = Some x
              /\ In r (FieldRow ("fields." ++ JS.toString (k + j)) x).
Proof.
  revert k. induction l as [|x l IH]; intros k; [intros []|].
  cbn [rootRows]. rewrite in_app_iff. intros [H|H].
  - exists 0, x. now rewrite Nat.add_0_r.
  - destruct (IH _ H) as (j & y & Hj & Hr).
    exists (S j), y. now rewrite Nat.add_succ_r.
Qed.

(** A row below [f] carries the path of the positions that lead to its
    field, through fields of type [nested] only. *)
Lemma FieldRow_in (f : SchemaField) :
  forall (path : string) (r : Row),
    In r (FieldRow path f) ->
    exists rel, rowPath r = fold_left childPath rel path
                /\ descend rel f = Some (rowField r)
                /\ nestedAlong rel f = true
                /\ rowAddNested r = isNested (type (rowField r)).
Proof.
  induction f as [i n t|i n t l IH] using SchemaField_induction;
    intros path r; rewrite FieldRow_eq; cbn [type fields].
  - intros [<-|H]; [exists []; cbn; auto|]. now destruct t.
  - intros [<-|H]; [exists []; cbn; auto|].
    destruct t; try contradiction.
    apply nestedRows_in in H. destruct H as (j & x & Hj & Hr).
    rewrite Forall_forall in IH.
    destruct (IH x (nth_error_In _ _ Hj) _ _ Hr) as (rel & E & Hd & Hn & Ha).
    exists (j :: rel). cbn [fold_left descend nestedAlong type fields].
    rewrite Hj. auto.
Qed.

Lemma lookupField_descend (k : nat) (rel : list nat) (s : list SchemaField) :
  lookupField (k :: rel) s
  = match nth_error s k with
    | Some x => descend rel x
    | None => None
    end.
Proof.
  revert k s. induction rel as [|j rel IH]; intros k s; cbn [lookupField descend].
  - reflexivity.
  - destruct (nth_error s k) as [x|]; [|reflexivity].
    destruct (fields x) as [c|]; [|reflexivity].
    apply IH.
Qed.

(** Every row of the builder carries a path that resolves, in the form
    values it was rendered from, to the field the row shows. *)
Lemma JsonSchemaBuilder_in (s : SchemaFormValues) (r : Row) :
  In r (JsonSchemaBuilder s) ->
  exists k rel x,
    rowPath r = pathOf (k :: rel)
    /\ nth_error s k = Some x
    /\ descend rel x = Some (rowField r)
    /\ nestedAlong rel x = true
    /\ rowAddNested r = isNested (type (rowField r)).
Proof.
  intros H. apply rootRows_in in H. destruct H as (j & x & Hj & Hr).
  apply FieldRow_in in Hr. destruct Hr as (rel & E & Hd & Hn & Ha).
  exists j, rel, x. cbn [pathOf]. auto.
Qed.

End Rows.
(* ================================================================= *)
(** ** The projection: keys, values, empty and unnamed fields *)

Section ProjectionClaims.

(** C1, as stated, fails: the keys of the projection are not always the
    fields' names in sequence order. A field named ["b"] followed by a
    field named ["1"] projects to [{"1":"number","b":"string"}]: a name
    that is an array index is enumerated before the other names. *)
Lemma generateSchema_index_name_out_of_sequence :
  let fs := [ {| id := "i1"; name := "b"; type := TString; fields := None |};
              {| id := "i2"; name := "1"; type := TNumber; fields := None |} ] in
  generateSchema fs
  = JS.VObject [("1", JS.VString "number"); ("b", JS.VString "string")]
  /\ JS.keys (properties (generateSchema fs)) <> firstOccurrences (map name fs).
Proof. split; [reflexivity|discriminate]. Qed.

(** C1, amended: [generateSchema] returns an object whose keys are exactly
    the fields' names, each once; the names that are array indices come
    first, in ascending numeric order, and the other names follow in the
    order of their first field; the value under a name is the value of the
    last field with that name. Two root fields named ["x"], a string then
    a number, project to [{"x":"number"}]. *)
Theorem generateSchema_keys_and_values (fs : list SchemaField) :
  let o := properties (generateSchema fs) in
  generateSchema fs = JS.VObject o
  /\ (forall k, In k (JS.keys o) <-> In k (map name fs))
  /\ NoDup (JS.keys o)
  /\ JS.keys o
     = filter isArrayIndex (JS.keys o)
       ++ firstOccurrences
            (filter (fun k => negb (isArrayIndex k)) (map name fs))
  /\ Sorted.StronglySorted (fun k k' => JS.precedes k k' = true)
       (filter isArrayIndex (JS.keys o))
  /\ (forall k, JS.getProperty k o = option_map fieldValue (lastNamed k fs))
  /\ (forall i1 i2 c1 c2,
        generateSchema [mkSchemaField i1 "x" TString c1;
                        mkSchemaField i2 "x" TNumber c2]
        = JS.VObject [("x", JS.VString "number")]).
Proof.
  cbv zeta. pose proof (generateSchema_enumerated fs) as He.
  split; [reflexivity|].
  split; [intros k; apply generateSchema_keys_in|].
  split; [apply He|].
  split; [rewrite <- generateSchema_string_keys;
          now apply enumerated_indices_first|].
  split; [now apply enumerated_indices_ascend|].
  split; [intros k; apply generateSchema_get|].
  reflexivity.
Qed.

(** C4: a field whose type is not [nested] contributes its type tag, a
    string, whatever [fields] it still carries: alone it projects to its
    name mapped to the tag, and as the last field of any sequence its name
    maps to the tag. The select that switches the field at a path to
    [string] keeps its [fields], and the field then projects as
    ["string"]. *)
Theorem non_nested_projects_type_tag (f g : SchemaField) (fs : list SchemaField)
    (s : SchemaFormValues) (idxs : list nat) :
  type f <> TNested ->
  lookupField idxs s = Some g ->
  fieldValue f = JS.VString (typeTag (type f))
  /\ generateSchema [f] = JS.VObject [(name f, JS.VString (typeTag (type f)))]
  /\ JS.getProperty (name f) (properties (generateSchema (fs ++ [f])))
     = Some (JS.VString (typeTag (type f)))
  /\ exists s',
       setFieldType (pathOf idxs) TString s = Ok (tt, s')
       /\ lookupField idxs s' = Some (withType g TString)
       /\ fields (withType g TString) = fields g
       /\ fieldValue (withType g TString) = JS.VString "string"
       /\ generateSchema [withType g TString]
          = JS.VObject [(name g, JS.VString "string")].
Proof.
  intros Ht Hg.
  assert (Hv : fieldValue f = JS.VString (typeTag (type f))).
  { rewrite fieldValue_eq. destruct (type f); [reflexivity|reflexivity|congruence]. }
  repeat split.
  - exact Hv.
  - unfold generateSchema. cbn [fold_left JS.defineProperty]. now rewrite Hv.
  - rewrite generateSchema_snoc, getProperty_define_eq. now rewrite Hv.
  - rewrite setFieldType_at by (eapply lookupField_some_nonempty; eauto).
    destruct (updateField_lookup idxs (fun f => withType f TString) s g Hg)
      as (s' & Hu & Hl & _).
    rewrite Hu. exists s'. repeat split; assumption.
Qed.

Lemma non_nested_projects_type_tag_witness :
  let g := {| id := "i1"; name := "address"; type := TNested;
              fields := Some [ {| id := "i2"; name := "city"; type := TString;
                                  fields := None |} ] |} in
  let f := withType g TString in
  fieldValue f = JS.VString (typeTag (type f))
  /\ generateSchema [f] = JS.VObject [(name f, JS.VString (typeTag (type f)))]
  /\ JS.getProperty (name f) (properties (generateSchema ([] ++ [f])))
     = Some (JS.VString (typeTag (type f)))
  /\ exists s',
       setFieldType (pathOf [0]) TString [g] = Ok (tt, s')
       /\ lookupField [0] s' = Some (withType g TString)
       /\ fields (withType g TString) = fields g
       /\ fieldValue (withType g TString) = JS.VString "string"
       /\ generateSchema [withType g TString]
          = JS.VObject [(name g, JS.VString "string")].
Proof.
  cbv zeta.
  apply (non_nested_projects_type_tag _ _ [] _ [0]).
  - discriminate.
  - reflexivity.
Defined.

(** C5: a field of type [nested] whose [fields] is absent or empty has the
    empty object as its value, and so projects to its name mapped to
    [{}]; the empty root sequence projects to [{}]. *)
Theorem empty_nested_projects_empty_object (f : SchemaField) :
  type f = TNested ->
  fields f = None \/ fields f = Some [] ->
  fieldValue f = JS.VObject []
  /\ generateSchema [f] = JS.VObject [(name f, JS.VObject [])]
  /\ generateSchema [] = JS.VObject [].
Proof.
  intros Ht Hf.
  assert (Hv : fieldValue f = JS.VObject []).
  { rewrite fieldValue_eq, Ht. destruct Hf as [-> | ->]; reflexivity. }
  repeat split; [exact Hv|].
  unfold generateSchema. cbn [fold_left JS.defineProperty]. now rewrite Hv.
Qed.

Lemma empty_nested_projects_empty_object_witness :
  let f := {| id := "i1"; name := "address"; type := TNested; fields := Some [] |} in
  fieldValue f = JS.VObject []
  /\ generateSchema [f] = JS.VObject [(name f, JS.VObject [])]
  /\ generateSchema [] = JS.VObject [].
Proof.
  cbv zeta. apply empty_nested_projects_empty_object.
  - reflexivity.
  - right. reflexivity.
Defined.

(** C9: the projection of any sequence of fields is an object, with no
    case left out; when some field has the empty name, the object has the
    empty string as a key, once however many fields are unnamed, and the
    value under it is that of the last unnamed field. *)
Theorem generateSchema_total_and_unnamed (fs : list SchemaField) :
  exists o,
    generateSchema fs = JS.VObject o
    /\ NoDup (JS.keys o)
    /\ forall f, In f fs -> name f = "" ->
         In "" (JS.keys o)
         /\ count_occ string_dec (JS.keys o) "" = 1
         /\ exists g, lastNamed "" fs = Some g
                      /\ In g fs /\ name g = ""
                      /\ JS.getProperty "" o = Some (fieldValue g).
Proof.
  exists (properties (generateSchema fs)).
  pose proof (generateSchema_enumerated fs) as [_ Hnd].
  split; [reflexivity|]. split; [exact Hnd|].
  intros f Hin Hname.
  assert (Hk : In "" (JS.keys (properties (generateSchema fs)))).
  { apply generateSchema_keys_in. rewrite <- Hname. now apply in_map. }
  split; [exact Hk|]. split.
  - apply NoDup_count_occ' ; assumption.
  - rewrite generateSchema_get. unfold lastNamed.
    destruct (find (fun f0 => (name f0 =? "")%string) (rev fs)) as [g|] eqn:Hfind.
    + exists g. apply find_some in Hfind. destruct Hfind as [Hg Hn].
      apply in_rev in Hg. apply String.eqb_eq in Hn. auto.
    + exfalso. apply in_rev in Hin.
      pose proof (find_none _ _ Hfind f Hin) as Hno. cbv beta in Hno.
      rewrite Hname in Hno. discriminate.
Qed.

Lemma generateSchema_total_and_unnamed_witness :
  let fs := [ newField "u0"; {| id := "u1"; name := ""; type := TNumber;
                                fields := None |} ] in
  exists o,
    generateSchema fs = JS.VObject o
    /\ NoDup (JS.keys o)
    /\ JS.getProperty "" o = Some (JS.VString "number").
Proof.
  intros fs.
  destruct (generateSchema_total_and_unnamed fs) as (o & Ho & Hnd & Hun).
  exists o. split; [exact Ho|]. split; [exact Hnd|].
  destruct (Hun (newField "u0") (or_introl eq_refl) eq_refl)
    as (_ & _ & g & Hg & _ & _ & Hget).
  injection Hg as <-. exact Hget.
Defined.

End ProjectionClaims.
(* ================================================================= *)
(** ** The handlers: adding, removing and retyping fields *)

Section HandlerClaims.

(** C2, as stated, fails: [removeField] raises nothing on a path that
    resolves to no field. With one nested root field that has one child,
    the path of a sixth child resolves to nothing and the call returns with
    the form values as they were; and below a root field of type [string]
    that still carries a child, the child's path is followed and the child
    removed. *)
Lemma removeField_stale_path_returns :
  let child := {| id := "i2"; name := "city"; type := TString; fields := None |} in
  let s := [ {| id := "i1"; name := "address"; type := TNested;
                fields := Some [child] |} ] in
  let s2 := [ {| id := "i1"; name := "address"; type := TString;
                 fields := Some [child] |} ] in
  lookupField [0; 5] s = None
  /\ removeField "fields.0.fields.5" s = Ok (tt, s)
  /\ removeField "fields.0.fields.0" s2
     = Ok (tt, [ {| id := "i1"; name := "address"; type := TString;
                    fields := Some [] |} ]).
Proof. repeat split. Qed.

(** C2, amended: [removeField] has no error to fail with. Whenever the
    path up to its last position resolves to a field, of whatever type,
    the call returns, and that field's [fields] are the ones it had
    without the last position; a last position past the end of the
    [fields] the field has leaves the form values as they were. *)
Theorem removeField_rejects_no_path (s : SchemaFormValues) (pre : list nat)
    (i : nat) (f : SchemaField) :
  lookupField pre s = Some f ->
  exists s',
    removeField (pathOf (pre ++ [i])) s = Ok (tt, s')
    /\ lookupField pre s'
       = Some (withFields f (Some (dropAt i (JS.orEmpty (fields f)))))
    /\ (forall c, fields f = Some c -> List.length c <= i -> s' = s).
Proof.
  intros Hf. pose proof (lookupField_some_nonempty _ _ _ Hf) as Hne.
  rewrite removeField_nested by assumption.
  destruct (updateField_lookup pre
              (fun f => withFields f (Some (dropAt i (JS.orEmpty (fields f)))))
              s f Hf) as (s' & Hu & Hl & _).
  rewrite Hu. exists s'. split; [reflexivity|]. split; [exact Hl|].
  intros c Hc Hlen.
  rewrite (updateField_same pre _ s f Hf) in Hu.
  - congruence.
  - rewrite Hc. cbn [JS.orEmpty]. rewrite dropAt_out_of_bounds by assumption.
    rewrite <- Hc. apply withFields_same.
Qed.

Lemma removeField_rejects_no_path_witness :
  let child := {| id := "i2"; name := "city"; type := TString; fields := None |} in
  let f := {| id := "i1"; name := "address"; type := TNested;
              fields := Some [child] |} in
  exists s',
    removeField (pathOf ([0] ++ [5])) [f] = Ok (tt, s')
    /\ lookupField [0] s'
       = Some (withFields f (Some (dropAt 5 (JS.orEmpty (fields f)))))
    /\ (forall c, fields f = Some c -> List.length c <= 5 -> s' = [f]).
Proof.
  cbv zeta. apply removeField_rejects_no_path. reflexivity.
Defined.

(** C3, where the code departs from it: at the root, [removeField] takes
    out the first field whatever position the path names. Asked to remove
    the second of two root fields, it removes the first. (Asked to remove
    the first, it leaves the second, at position 0.) *)
Theorem removeField_root_removes_first (a b : SchemaField) :
  removeField "fields.1" [a; b] = Ok (tt, [b])
  /\ removeField "fields.0" [a; b] = Ok (tt, [b])
  /\ forall (i : nat) (s : SchemaFormValues),
       removeField (pathOf [i]) s = Ok (tt, tl s).
Proof.
  split; [apply (removeField_root 1 [a; b])|].
  split; [apply (removeField_root 0 [a; b])|].
  apply removeField_root.
Qed.

(** C6, as stated, fails: [addField] does not return the id of the field
    it creates; a call evaluates to undefined. *)
Lemma addField_returns_no_id :
  addField "u1" None (defaultValues "u0")
  = Ok (None, [newField "u0"; newField "u1"])
  /\ ~ exists s', addField "u1" None (defaultValues "u0") = Ok (Some "u1", s').
Proof.
  split; [reflexivity|]. intros [s' H]. discriminate.
Qed.

(** C6, amended: [addField] creates a field with the id
    [crypto.randomUUID()] drew, the empty name, type [string] and no
    [fields]. Without a parent path the field is appended to the root
    sequence; with the path of an existing field it is appended to that
    field's [fields], taken as empty when absent. The call returns
    undefined. The new id is the one id added to those of the tree. *)
Theorem addField_appends_new_field (uuid : string) (s : SchemaFormValues) :
  newField uuid = {| id := uuid; name := ""; type := TString; fields := None |}
  /\ addField uuid None s = Ok (None, s ++ [newField uuid])
  /\ ids (s ++ [newField uuid]) = ids s ++ [uuid]
  /\ forall pre f,
       lookupField pre s = Some f ->
       exists s',
         addField uuid (Some (pathOf pre)) s = Ok (None, s')
         /\ lookupField pre s'
            = Some (withFields f
                      (Some (JS.orEmpty (fields f) ++ [newField uuid])))
         /\ Permutation (ids s') (uuid :: ids s).
Proof.
  split; [reflexivity|]. split; [reflexivity|].
  split; [now rewrite ids_app|].
  intros pre f Hf. pose proof (lookupField_some_nonempty _ _ _ Hf) as Hne.
  destruct (updateField_lookup pre
              (fun f => withFields f
                          (Some (JS.orEmpty (fields f) ++ [newField uuid])))
              s f Hf) as (s' & Hu & Hl & _).
  exists s'.
  assert (Ha : addField uuid (Some (pathOf pre)) s = Ok (None, s')).
  { rewrite addField_nested by assumption. now rewrite Hu. }
  split; [exact Ha|]. split; [exact Hl|].
  destruct (addField_ids _ _ _ _ _ Ha) as (l1 & l2 & -> & ->).
  symmetry. apply Permutation_middle.
Qed.

Lemma addField_appends_new_field_witness :
  let f := {| id := "u0"; name := "address"; type := TNested; fields := None |} in
  exists s',
    addField "u1" (Some (pathOf [0])) [f] = Ok (None, s')
    /\ lookupField [0] s'
       = Some (withFields f (Some (JS.orEmpty (fields f) ++ [newField "u1"])))
    /\ Permutation (ids s') ("u1" :: ids [f]).
Proof.
  cbv zeta.
  apply (proj2 (proj2 (proj2 (addField_appends_new_field "u1" _))) [0]).
  reflexivity.
Defined.

(** C7, as stated, fails: switching the default field to [nested] leaves
    it without [fields]; no empty sequence is stored. *)
Lemma setFieldType_nested_leaves_fields_absent :
  setFieldType "fields.0" TNested (defaultValues "u0")
  = Ok (tt, [ {| id := "u0"; name := ""; type := TNested; fields := None |} ])
  /\ setFieldType "fields.0" TNested (defaultValues "u0")
     <> Ok (tt, [ {| id := "u0"; name := ""; type := TNested;
                     fields := Some [] |} ]).
Proof. split; [reflexivity|discriminate]. Qed.

(** C7, amended: the type select overwrites the type of the field at the
    path and nothing else; a field without [fields] still has none after
    it is switched to [nested], and it then projects to the empty object,
    as a field with an empty sequence would. *)
Theorem setFieldType_overwrites_type_only (s : SchemaFormValues)
    (idxs : list nat) (t : SchemaFieldType) (f : SchemaField) :
  lookupField idxs s = Some f ->
  exists s',
    setFieldType (pathOf idxs) t s = Ok (tt, s')
    /\ lookupField idxs s' = Some (withType f t)
    /\ fields (withType f t) = fields f
    /\ ids s' = ids s
    /\ (fields f = None -> fieldValue (withType f TNested) = JS.VObject []).
Proof.
  intros Hf. pose proof (lookupField_some_nonempty _ _ _ Hf) as Hne.
  rewrite setFieldType_at by assumption.
  destruct (updateField_lookup idxs (fun f => withType f t) s f Hf)
    as (s' & Hu & Hl & _).
  rewrite Hu. exists s'. repeat split; try assumption.
  - destruct (ids_update _ _ _ _ _ Hf Hu) as (l1 & l2 & -> & ->).
    now rewrite (fieldIds_eq (withType f t)), (fieldIds_eq f).
  - intros Hn. rewrite fieldValue_eq. cbn [type fields withType]. now rewrite Hn.
Qed.

Lemma setFieldType_overwrites_type_only_witness :
  exists s',
    setFieldType (pathOf [0]) TNested (defaultValues "u0") = Ok (tt, s')
    /\ lookupField [0] s' = Some (withType (newField "u0") TNested)
    /\ fields (withType (newField "u0") TNested) = fields (newField "u0")
    /\ ids s' = ids (defaultValues "u0")
    /\ (fields (newField "u0") = None ->
        fieldValue (withType (newField "u0") TNested) = JS.VObject []).
Proof.
  apply setFieldType_overwrites_type_only. reflexivity.
Defined.

(** C8: start from the default tree and make any calls of [addField] and
    [removeField], with any arguments, that stay in the model. When the
    ids [crypto.randomUUID()] drew, the default field's included, are
    pairwise different, no two fields of the resulting tree share an id,
    and every id in the tree is one of those drawn. *)
Theorem ids_stay_unique (uuid0 : string) (ops : list Op) (s' : SchemaFormValues) :
  exec (run ops) (defaultValues uuid0) = Some s' ->
  NoDup (uuid0 :: drawn ops) ->
  NoDup (ids s') /\ incl (ids s') (uuid0 :: drawn ops).
Proof.
  intros Hrun Hnd. apply (run_ids ops (defaultValues uuid0) s' Hrun Hnd).
Qed.

Lemma ids_stay_unique_witness :
  let ops := [AddField "u1" None; AddField "u2" (Some "fields.1");
              RemoveField "fields.0"; AddField "u3" (Some "fields.0");
              RemoveField "fields.0.fields.0"] in
  let s' := [ {| id := "u1"; name := ""; type := TString;
                 fields := Some [newField "u3"] |} ] in
  NoDup (ids s') /\ incl (ids s') ("u0" :: drawn ops).
Proof.
  cbv zeta. apply (ids_stay_unique "u0").
  - reflexivity.
  - repeat constructor; cbn; intuition discriminate.
Defined.

(** C10: [addField] with the path of an existing field whose type is not
    [nested] returns all the same: the new field is appended to that
    field's [fields], which are created when absent, and the projection of
    the tree is what it was. *)
Theorem addField_below_non_nested (uuid : string) (s : SchemaFormValues)
    (pre : list nat) (f : SchemaField) :
  lookupField pre s = Some f ->
  type f <> TNested ->
  exists s',
    addField uuid (Some (pathOf pre)) s = Ok (None, s')
    /\ lookupField pre s'
       = Some (withFields f (Some (JS.orEmpty (fields f) ++ [newField uuid])))
    /\ generateSchema s' = generateSchema s.
Proof.
  intros Hf Ht. pose proof (lookupField_some_nonempty _ _ _ Hf) as Hne.
  rewrite addField_nested by assumption.
  destruct (updateField_lookup pre
              (fun f => withFields f
                          (Some (JS.orEmpty (fields f) ++ [newField uuid])))
              s f Hf) as (s' & Hu & Hl & _).
  rewrite Hu. exists s'. split; [reflexivity|]. split; [exact Hl|].
  apply (updateField_schema _ _ _ _ _ Hf Hu); [reflexivity|].
  rewrite !fieldValue_eq. cbn [type withFields].
  destruct (type f); [reflexivity|reflexivity|congruence].
Qed.

Lemma addField_below_non_nested_witness :
  let f := {| id := "u0"; name := "age"; type := TNumber; fields := None |} in
  exists s',
    addField "u1" (Some (pathOf [0])) [f] = Ok (None, s')
    /\ lookupField [0] s'
       = Some (withFields f (Some (JS.orEmpty (fields f) ++ [newField "u1"])))
    /\ generateSchema s' = generateSchema [f].
Proof.
  cbv zeta. apply addField_below_non_nested.
  - reflexivity.
  - discriminate.
Defined.

End HandlerClaims.
(* ================================================================= *)
(** ** Paths, rows and the calls the screen offers *)

Section Screen.

Lemma segments_inj (a b : list nat) : segments a = segments b -> a = b.
Proof.
  revert b. induction a as [|i a IH]; intros [|j b]; try discriminate; auto.
  cbn [segments flat_map app]. fold (segments a). fold (segments b).
  intros [= Hi Hs]. f_equal; [now apply toString_inj|now apply IH].
Qed.

(** Lines 81-83 of [removeField] undo what [FieldRow] wrote: the last
    part of a nested row's path parses to its position, and the parts
    before it join to the name of the parent's [fields]. *)
Theorem removeField_path_parts (pre : list nat) (i : nat) :
  pre <> [] ->
  let path := pathOf (pre ++ [i]) in
  let parts := JS.split "." path in
  JS.includes ".fields." path = true
  /\ JS.parseInt (last parts "undefined") = JS.Num (Z.of_nat i)
  /\ JS.join "." (removelast parts) = (pathOf pre ++ ".fields")%string.
Proof.
  intros H. cbv zeta. split; [now apply includes_nested|].
  rewrite split_pathOf by (destruct pre; discriminate).
  rewrite segments_app. cbn [segments flat_map app].
  replace (segments pre ++ ["fields"; JS.toString i])
    with ((segments pre ++ ["fields"]) ++ [JS.toString i])
    by now rewrite <- List.app_assoc.
  rewrite last_last, removelast_last, parseInt_toString.
  split; [reflexivity|]. symmetry. now apply pathOf_key.
Qed.

Lemma removeField_path_parts_witness :
  let path := pathOf ([2; 0] ++ [13]) in
  let parts := JS.split "." path in
  JS.includes ".fields." path = true
  /\ JS.parseInt (last parts "undefined") = JS.Num (Z.of_nat 13)
  /\ JS.join "." (removelast parts) = (pathOf [2; 0] ++ ".fields")%string.
Proof.
  apply (removeField_path_parts [2; 0] 13). discriminate.
Defined.

Lemma pathOf_inj (a b : list nat) : pathOf a = pathOf b -> a = b.
Proof.
  destruct a as [|i a], b as [|j b]; intros H.
  - reflexivity.
  - symmetry in H. now apply pathOf_nonempty in H.
  - now apply pathOf_nonempty in H.
  - apply segments_inj.
    rewrite <- !split_pathOf by discriminate. now rewrite H.
Qed.

(** Different positions give different paths, at every depth: the path
    [FieldRow] builds names one place in the tree. *)
Theorem pathOf_injective (a b : list nat) : a <> b -> pathOf a <> pathOf b.
Proof.
  intros Hne H. apply Hne.
  destruct a as [|i a], b as [|j b].
  - reflexivity.
  - symmetry in H. now apply pathOf_nonempty in H.
  - now apply pathOf_nonempty in H.
  - apply segments_inj.
    rewrite <- !split_pathOf by discriminate. now rewrite H.
Qed.

Lemma pathOf_injective_witness : pathOf [1; 12] <> pathOf [11; 2].
Proof. apply pathOf_injective. discriminate. Defined.

Lemma lookupField_snoc (pre : list nat) (j : nat) (s : list SchemaField) :
  pre <> [] ->
  lookupField (pre ++ [j]) s
  = match lookupField pre s with
    | Some f =>
        match fields f with
        | Some c => nth_error c j
        | None => None
        end
    | None => None
    end.
Proof.
  revert s. induction pre as [|i pre IH]; intros s H; [congruence|].
  cbn [app lookupField].
  destruct (nth_error s i) as [x|]; [|now destruct (pre ++ [j])].
  destruct pre as [|k pre].
  - cbn [app lookupField]. destruct (fields x) as [c|]; [|reflexivity].
    now destruct (nth_error c j).
  - cbn [app]. change (k :: pre ++ [j]) with ((k :: pre) ++ [j]).
    destruct (fields x) as [c|]; [|reflexivity].
    apply IH. discriminate.
Qed.

Lemma rows_resolve_aux (s : SchemaFormValues) (r : Row) :
  In r (JsonSchemaBuilder s) ->
  exists idxs, rowPath r = pathOf idxs /\ lookupField idxs s = Some (rowField r).
Proof.
  intros H. apply JsonSchemaBuilder_in in H.
  destruct H as (k & rel & x & E & Hk & Hd & _).
  exists (k :: rel). rewrite lookupField_descend, Hk. auto.
Qed.

(** Every row on the screen carries a path that resolves, in the form
    values it was rendered from, to the field the row shows; the Add
    Nested Field button is there exactly when that field's type is
    [nested]. *)
Theorem rows_resolve (s : SchemaFormValues) (r : Row) :
  In r (JsonSchemaBuilder s) ->
  exists idxs,
    rowPath r = pathOf idxs
    /\ lookupField idxs s = Some (rowField r)
    /\ rowAddNested r = isNested (type (rowField r)).
Proof.
  intros H. apply JsonSchemaBuilder_in in H.
  destruct H as (k & rel & x & E & Hk & Hd & _ & Ha).
  exists (k :: rel). rewrite lookupField_descend, Hk. auto.
Qed.

Lemma rows_resolve_witness :
  let child := {| id := "i2"; name := "city"; type := TString; fields := None |} in
  let s := [ {| id := "i1"; name := "address"; type := TNested;
                fields := Some [child] |} ] in
  let r := mkRow "fields.0.fields.0" child false in
  exists idxs,
    rowPath r = pathOf idxs
    /\ lookupField idxs s = Some (rowField r)
    /\ rowAddNested r = isNested (type (rowField r)).
Proof.
  cbv zeta. apply rows_resolve. cbn. auto.
Defined.

(** The handlers return on every path the screen shows: removing the
    row, adding below it, retyping and renaming it all stay in the model. *)
Theorem row_handlers_return (s : SchemaFormValues) (r : Row)
    (uuid text : string) (t : SchemaFieldType) :
  In r (JsonSchemaBuilder s) ->
  (exists s1, removeField (rowPath r) s = Ok (tt, s1))
  /\ (exists s2, addField uuid (Some (rowPath r)) s = Ok (None, s2))
  /\ (exists s3, setFieldType (rowPath r) t s = Ok (tt, s3))
  /\ (exists s4, setFieldName (rowPath r) text s = Ok (tt, s4)).
Proof.
  intros H. destruct (rows_resolve_aux s r H) as (idxs & -> & Hl).
  pose proof (lookupField_some_nonempty _ _ _ Hl) as Hne.
  split; [|split; [|split]].
  - destruct (exists_last Hne) as (pre & i & ->).
    destruct pre as [|k pre].
    + exists (tl s). apply removeField_root.
    + rewrite removeField_nested by discriminate.
      rewrite lookupField_snoc in Hl by discriminate.
      destruct (lookupField (k :: pre) s) as [p|] eqn:Hp; [|discriminate].
      destruct (updateField_lookup (k :: pre)
                  (fun f => withFields f (Some (dropAt i (JS.orEmpty (fields f)))))
                  s p Hp) as (s1 & -> & _).
      now exists s1.
  - rewrite addField_nested by assumption.
    destruct (updateField_lookup idxs
                (fun f => withFields f
                            (Some (JS.orEmpty (fields f) ++ [newField uuid])))
                s (rowField r) Hl) as (s2 & -> & _).
    now exists s2.
  - rewrite setFieldType_at by assumption.
    destruct (updateField_lookup idxs (fun f => withType f t) s (rowField r) Hl)
      as (s3 & -> & _).
    now exists s3.
  - rewrite setFieldName_at by assumption.
    destruct (updateField_lookup idxs (fun f => withName f text) s (rowField r) Hl)
      as (s4 & -> & _).
    now exists s4.
Qed.

Lemma row_handlers_return_witness :
  let child := {| id := "i2"; name := "city"; type := TString; fields := None |} in
  let s := [ {| id := "i1"; name := "address"; type := TNested;
                fields := Some [child] |} ] in
  let r := mkRow "fields.0.fields.0" child false in
  (exists s1, removeField (rowPath r) s = Ok (tt, s1))
  /\ (exists s2, addField "u" (Some (rowPath r)) s = Ok (None, s2))
  /\ (exists s3, setFieldType (rowPath r) TNumber s = Ok (tt, s3))
  /\ (exists s4, setFieldName (rowPath r) "town" s = Ok (tt, s4)).
Proof.
  cbv zeta. apply row_handlers_return. cbn. auto.
Defined.

Lemma step_offered_returns (s : SchemaFormValues) (o : Op) :
  offers s o = true -> exists s1, exec (step o) s = Some s1.
Proof.
  destruct o as [u [p|]|p]; cbn [offers step]; unfold exec, bind, ret.
  - rewrite existsb_exists. intros (r & Hin & Hr).
    apply andb_true_iff in Hr. destruct Hr as [Hp _].
    apply String.eqb_eq in Hp. subst p.
    destruct (rows_resolve_aux s r Hin) as (idxs & -> & Hl).
    rewrite addField_nested by (eapply lookupField_some_nonempty; eauto).
    destruct (updateField_lookup idxs
                (fun f => withFields f
                            (Some (JS.orEmpty (fields f) ++ [newField u])))
                s (rowField r) Hl) as (s2 & -> & _).
    now exists s2.
  - intros _. rewrite addField_root. eauto.
  - rewrite existsb_exists. intros (r & Hin & Hp).
    apply String.eqb_eq in Hp. subst p.
    destruct (rows_resolve_aux s r Hin) as (idxs & -> & Hl).
    pose proof (lookupField_some_nonempty _ _ _ Hl) as Hne.
    destruct (exists_last Hne) as (pre & i & ->).
    destruct pre as [|k pre].
    + cbn [app]. rewrite removeField_root. eauto.
    + rewrite removeField_nested by discriminate.
      rewrite lookupField_snoc in Hl by discriminate.
      destruct (lookupField (k :: pre) s) as [q|] eqn:Hq; [|discriminate].
      destruct (updateField_lookup (k :: pre)
                  (fun f => withFields f (Some (dropAt i (JS.orEmpty (fields f)))))
                  s q Hq) as (s1 & -> & _).
      now exists s1.
Qed.

(** Calls made from the screen never leave the model: when each call of a
    sequence is one the screen offers at its turn, the whole run returns,
    and with pairwise different ids drawn the ids of the resulting tree are
    pairwise different. *)
Theorem offered_run_returns (s : SchemaFormValues) (ops : list Op) :
  offered s ops = true ->
  NoDup (ids s ++ drawn ops) ->
  exists s', exec (run ops) s = Some s' /\ NoDup (ids s').
Proof.
  intros Hoff Hnd.
  assert (Hrun : exists s', exec (run ops) s = Some s').
  { clear Hnd. revert s Hoff. induction ops as [|o ops IH]; intros s.
    - intros _. now exists s.
    - cbn [offered]. rewrite andb_true_iff. intros [Ho Hrest].
      destruct (step_offered_returns s o Ho) as (s1 & Hs1).
      rewrite Hs1 in Hrest. destruct (IH s1 Hrest) as (s' & Hs').
      exists s'. unfold exec in *. cbn [run]. unfold bind at 1.
      destruct (step o s) as [[[] s1']|]; [|discriminate].
      injection Hs1 as ->. exact Hs'. }
  destruct Hrun as (s' & Hs'). exists s'. split; [exact Hs'|].
  apply (run_ids ops s s' Hs' Hnd).
Qed.

Lemma offered_run_returns_witness :
  let ops := [AddField "u1" None; RemoveField "fields.1";
              AddField "u2" None] in
  exists s', exec (run ops) (defaultValues "u0") = Some s' /\ NoDup (ids s').
Proof.
  cbv zeta. apply offered_run_returns.
  - reflexivity.
  - repeat constructor; cbn; intuition discriminate.
Defined.

Lemma updateField_compose (idxs : list nat) (g h : SchemaField -> SchemaField)
    (s s1 : list SchemaField) :
  updateField idxs g s = Some s1 ->
  updateField idxs h s1 = updateField idxs (fun f => h (g f)) s.
Proof.
  revert s s1. induction idxs as [|i rest IH]; intros s s1; [discriminate|].
  cbn [updateField].
  destruct (nth_error s i) as [x|] eqn:Hi; [|discriminate].
  destruct rest as [|j rest].
  - intros [= <-]. rewrite (nth_error_replaceAt_eq _ _ _ _ Hi).
    f_equal. clear Hi. revert i.
    induction s as [|y s IHs]; intros [|i]; cbn; auto. f_equal. apply IHs.
  - destruct (fields x) as [c|] eqn:Hc; [|discriminate].
    destruct (updateField (j :: rest) g c) as [c1|] eqn:Hu; [|discriminate].
    intros [= <-]. rewrite (nth_error_replaceAt_eq _ _ _ _ Hi).
    cbn [fields withFields]. rewrite (IH c c1 Hu).
    destruct (updateField (j :: rest) (fun f => h (g f)) c) as [c2|]; [|reflexivity].
    f_equal. clear. revert i.
    induction s as [|y s IHs]; intros [|i]; cbn; auto. f_equal. apply IHs.
Qed.

Lemma dropAt_last (A : Type) (l : list A) (x : A) :
  dropAt (List.length l) (l ++ [x]) = l.
Proof.
  unfold dropAt. rewrite firstn_app, Nat.sub_diag, firstn_all. cbn [firstn].
  rewrite skipn_all2 by (rewrite length_app; cbn; lia).
  now rewrite !List.app_nil_r.
Qed.

(** Below the root, removing the row a call of [addField] just created
    undoes the call: with a parent that has [fields], adding a field and
    then removing the row at the last position gives back the form
    values. *)
Theorem addField_removeField_nested (uuid : string) (s : SchemaFormValues)
    (pre : list nat) (f : SchemaField) (c : list SchemaField) :
  lookupField pre s = Some f ->
  fields f = Some c ->
  exec (addField uuid (Some (pathOf pre)) ;;;
        removeField (pathOf (pre ++ [List.length c]))) s = Some s.
Proof.
  intros Hf Hc. pose proof (lookupField_some_nonempty _ _ _ Hf) as Hne.
  unfold exec, bind. rewrite addField_nested by assumption.
  destruct (updateField_lookup pre
              (fun f => withFields f
                          (Some (JS.orEmpty (fields f) ++ [newField uuid])))
              s f Hf) as (s1 & Hu & _).
  rewrite Hu. rewrite removeField_nested by assumption.
  rewrite (updateField_compose _ _ _ _ _ Hu).
  rewrite (updateField_same pre _ s f Hf); [reflexivity|].
  cbn [fields withFields JS.orEmpty]. rewrite Hc. cbn [JS.orEmpty].
  rewrite dropAt_last. rewrite <- Hc. destruct f; reflexivity.
Qed.

Lemma addField_removeField_nested_witness :
  let child := {| id := "i2"; name := "city"; type := TString; fields := None |} in
  let f := {| id := "i1"; name := "address"; type := TNested;
              fields := Some [child] |} in
  exec (addField "u" (Some (pathOf [0])) ;;;
        removeField (pathOf ([0] ++ [List.length [child]]))) [f] = Some [f].
Proof.
  intros child f.
  apply (addField_removeField_nested "u" [f] [0] f [child]); reflexivity.
Defined.

(** A type switch hides children, it does not discard them: switching the
    field at a path to any type and back to the type it had gives back the
    form values. *)
Theorem setFieldType_there_and_back (s : SchemaFormValues) (idxs : list nat)
    (t : SchemaFieldType) (f : SchemaField) :
  lookupField idxs s = Some f ->
  exec (setFieldType (pathOf idxs) t ;;;
        setFieldType (pathOf idxs) (type f)) s = Some s.
Proof.
  intros Hf. pose proof (lookupField_some_nonempty _ _ _ Hf) as Hne.
  unfold exec, bind. rewrite setFieldType_at by assumption.
  destruct (updateField_lookup idxs (fun f => withType f t) s f Hf)
    as (s1 & Hu & _).
  rewrite Hu. rewrite setFieldType_at by assumption.
  rewrite (updateField_compose _ _ _ _ _ Hu).
  rewrite (updateField_same idxs _ s f Hf); [reflexivity|].
  destruct f; reflexivity.
Qed.

Lemma setFieldType_there_and_back_witness :
  let child := {| id := "i2"; name := "city"; type := TString; fields := None |} in
  let f := {| id := "i1"; name := "address"; type := TNested;
              fields := Some [child] |} in
  exec (setFieldType (pathOf [0]) TString ;;;
        setFieldType (pathOf [0]) (type f)) [f] = Some [f].
Proof.
  cbv zeta. apply setFieldType_there_and_back. reflexivity.
Defined.

(** Below the root, [removeField] on the path of an existing child takes
    out that child: the children before it keep their paths, each child
    after it is found one position lower, and nothing else moves. *)
Theorem removeField_nested_shifts_siblings (s : SchemaFormValues)
    (pre : list nat) (i : nat) (f : SchemaField) (c : list SchemaField) :
  lookupField pre s = Some f ->
  fields f = Some c ->
  i < List.length c ->
  exists s',
    removeField (pathOf (pre ++ [i])) s = Ok (tt, s')
    /\ lookupField pre s' = Some (withFields f (Some (dropAt i c)))
    /\ List.length (dropAt i c) = List.length c - 1
    /\ (forall j, j < i ->
          lookupField (pre ++ [j]) s' = lookupField (pre ++ [j]) s)
    /\ (forall j, i <= j ->
          lookupField (pre ++ [j]) s' = lookupField (pre ++ [S j]) s).
Proof.
  intros Hf Hc Hi. pose proof (lookupField_some_nonempty _ _ _ Hf) as Hne.
  rewrite removeField_nested by assumption.
  destruct (updateField_lookup pre
              (fun f => withFields f (Some (dropAt i (JS.orEmpty (fields f)))))
              s f Hf) as (s' & Hu & Hl & _).
  rewrite Hu. rewrite Hc in Hl. cbn [JS.orEmpty] in Hl.
  exists s'. split; [reflexivity|]. split; [exact Hl|]. split.
  - unfold dropAt. rewrite length_app, length_firstn, length_skipn. lia.
  - split; intros j Hj; rewrite !lookupField_snoc by assumption;
      rewrite Hl, Hf, Hc; cbn [fields withFields].
    + now apply nth_error_dropAt_before.
    + now apply nth_error_dropAt_after.
Qed.

Lemma removeField_nested_shifts_siblings_witness :
  let c1 := {| id := "i2"; name := "city"; type := TString; fields := None |} in
  let c2 := {| id := "i3"; name := "zip"; type := TNumber; fields := None |} in
  let f := {| id := "i1"; name := "address"; type := TNested;
              fields := Some [c1; c2] |} in
  exists s',
    removeField (pathOf ([0] ++ [0])) [f] = Ok (tt, s')
    /\ lookupField [0] s' = Some (withFields f (Some (dropAt 0 [c1; c2])))
    /\ List.length (dropAt 0 [c1; c2]) = List.length [c1; c2] - 1
    /\ (forall j, j < 0 ->
          lookupField ([0] ++ [j]) s' = lookupField ([0] ++ [j]) [f])
    /\ (forall j, 0 <= j ->
          lookupField ([0] ++ [j]) s' = lookupField ([0] ++ [S j]) [f]).
Proof.
  cbv zeta. apply removeField_nested_shifts_siblings.
  - reflexivity.
  - reflexivity.
  - cbn. lia.
Defined.

End Screen.
(* ================================================================= *)
(** ** Names: the order of keys and the validator *)

Section Names.

(** When no field is named by an array index, the keys of the projection
    are the fields' names in sequence order, each at its first field. *)
Theorem generateSchema_keys_in_sequence_order (fs : list SchemaField) :
  forallb (fun f => negb (isArrayIndex (name f))) fs = true ->
  JS.keys (properties (generateSchema fs)) = firstOccurrences (map name fs).
Proof.
  intros H. rewrite forallb_forall in H.
  pose proof (generateSchema_enumerated fs) as He.
  rewrite (enumerated_indices_first _ He), generateSchema_string_keys.
  assert (E1 : filter isArrayIndex (JS.keys (properties (generateSchema fs))) = []).
  { destruct (filter isArrayIndex (JS.keys (properties (generateSchema fs))))
      as [|k ks] eqn:E; [reflexivity|].
    assert (Hk : In k (k :: ks)) by now left.
    rewrite <- E in Hk. apply filter_In in Hk. destruct Hk as [Hin Hidx].
    apply generateSchema_keys_in, in_map_iff in Hin.
    destruct Hin as (f & <- & Hf). specialize (H f Hf).
    rewrite Hidx in H. discriminate. }
  rewrite E1. cbn [app]. f_equal.
  clear -H. induction fs as [|f fs IH]; [reflexivity|].
  cbn [map filter]. rewrite (H f) by now left.
  f_equal. apply IH. intros x Hx. apply H. now right.
Qed.

Lemma generateSchema_keys_in_sequence_order_witness :
  let fs := [ {| id := "i1"; name := "x"; type := TString; fields := None |};
              {| id := "i2"; name := "age"; type := TNumber; fields := None |};
              {| id := "i3"; name := "x"; type := TNumber; fields := None |} ] in
  JS.keys (properties (generateSchema fs)) = firstOccurrences (map name fs).
Proof.
  cbv zeta. apply generateSchema_keys_in_sequence_order. reflexivity.
Defined.

Lemma name_required (f : SchemaField) :
  negb (String.length (name f) <? 1)%nat = true <-> name f <> "".
Proof.
  destruct (name f) as [|c n]; cbn.
  - split; [discriminate|congruence].
  - split; [discriminate|reflexivity].
Qed.

Lemma validField_eq (f : SchemaField) :
  validField f
  = negb (String.length (name f) <? 1)%nat
    && match fields f with
       | Some children => forallb validField children
       | None => true
       end.
Proof. destruct f as [i n t [c|]]; reflexivity. Qed.

Lemma valid_lookupField (idxs : list nat) (s : list SchemaField) (f : SchemaField) :
  forallb validField s = true -> lookupField idxs s = Some f ->
  validField f = true.
Proof.
  revert s. induction idxs as [|i rest IH]; intros s Hs; [discriminate|].
  cbn [lookupField].
  destruct (nth_error s i) as [x|] eqn:Hi; [|discriminate].
  rewrite forallb_forall in Hs. pose proof (Hs x (nth_error_In _ _ Hi)) as Hx.
  destruct rest as [|j rest]; [congruence|].
  rewrite validField_eq in Hx. apply andb_true_iff in Hx. destruct Hx as [_ Hc].
  destruct (fields x) as [c|]; [|discriminate].
  now apply IH.
Qed.

Lemma valid_descend (x : SchemaField) :
  (forall rel g, descend rel x = Some g -> name g <> "") -> validField x = true.
Proof.
  induction x as [i n t|i n t l IH] using SchemaField_induction; intros H;
    rewrite validField_eq; apply andb_true_iff; split.
  - apply name_required. now apply (H []).
  - reflexivity.
  - apply name_required. now apply (H []).
  - cbn [fields]. apply forallb_forall. intros y Hy.
    rewrite Forall_forall in IH.
    apply (IH y Hy). intros rel g Hg.
    destruct (In_nth_error _ _ Hy) as [j Hj].
    apply (H (j :: rel)). cbn [descend fields]. now rewrite Hj.
Qed.

(** [schemaFormValidator] accepts the form values exactly when every
    field that a path resolves to has a name, at any depth and also below
    fields whose type is not [nested]. *)
Theorem schemaFormValidator_iff (s : SchemaFormValues) :
  schemaFormValidator s = true
  <-> forall idxs f, lookupField idxs s = Some f -> name f <> "".
Proof.
  unfold schemaFormValidator. split.
  - intros Hs idxs f Hf. pose proof (valid_lookupField _ _ _ Hs Hf) as Hv.
    rewrite validField_eq in Hv. apply andb_true_iff in Hv.
    now apply name_required.
  - intros H. apply forallb_forall. intros x Hx.
    destruct (In_nth_error _ _ Hx) as [k Hk].
    apply valid_descend. intros rel g Hg.
    apply (H (k :: rel)). now rewrite lookupField_descend, Hk.
Qed.

(** Form values the validator accepts project without an empty key. *)
Theorem valid_schema_has_no_empty_key (s : SchemaFormValues) :
  schemaFormValidator s = true ->
  ~ In "" (JS.keys (properties (schema s))).
Proof.
  unfold schemaFormValidator, schema. intros Hs Hin.
  apply generateSchema_keys_in, in_map_iff in Hin.
  destruct Hin as (f & Hn & Hf).
  rewrite forallb_forall in Hs. specialize (Hs f Hf).
  rewrite validField_eq in Hs. apply andb_true_iff in Hs. destruct Hs as [Hs _].
  now apply name_required in Hs.
Qed.

Lemma valid_schema_has_no_empty_key_witness :
  ~ In "" (JS.keys (properties (schema
       [ {| id := "i1"; name := "age"; type := TNumber; fields := None |} ]))).
Proof.
  apply valid_schema_has_no_empty_key. reflexivity.
Defined.



Lemma rootRows_app (k : nat) (a b : list SchemaField) :
  rootRows k (a ++ b) = rootRows k a ++ rootRows (k + List.length a) b.
Proof.
  revert k. induction a as [|x a IH]; intros k; cbn [app rootRows List.length].
  - now rewrite Nat.add_0_r.
  - rewrite IH, <- List.app_assoc, Nat.add_succ_r. reflexivity.
Qed.

(** The Add Field button puts one row at the end of the screen: the rows
    before it are unchanged, and the new row has the path of the first free
    root position, no name yet, type [string] and no button to nest. *)
Theorem addField_root_adds_last_row (uuid : string) (s : SchemaFormValues) :
  exists s',
    addField uuid None s = Ok (None, s')
    /\ JsonSchemaBuilder s'
       = JsonSchemaBuilder s
         ++ [mkRow (pathOf [List.length s]) (newField uuid) false].
Proof.
  exists (s ++ [newField uuid]). split; [reflexivity|].
  unfold JsonSchemaBuilder. now rewrite rootRows_app.
Qed.



End Names.

(* ================================================================= *)
(** ** Edits in place: what they touch and what the screen reaches *)

Section Edits.

(** Renaming the field at a path overwrites its name and nothing else:
    its id, type and [fields] stay, the ids of the tree stay, and the value
    it projects to is the one it had. *)
Theorem setFieldName_overwrites_name_only (s : SchemaFormValues)
    (idxs : list nat) (text : string) (f : SchemaField) :
  lookupField idxs s = Some f ->
  exists s',
    setFieldName (pathOf idxs) text s = Ok (tt, s')
    /\ lookupField idxs s'
       = Some {| id := id f; name := text; type := type f; fields := fields f |}
    /\ ids s' = ids s
    /\ fieldValue (withName f text) = fieldValue f.
Proof.
  intros Hf. pose proof (lookupField_some_nonempty _ _ _ Hf) as Hne.
  rewrite setFieldName_at by assumption.
  destruct (updateField_lookup idxs (fun f => withName f text) s f Hf)
    as (s' & Hu & Hl & _).
  rewrite Hu. exists s'. split; [reflexivity|]. split; [exact Hl|]. split.
  - destruct (ids_update _ _ _ _ _ Hf Hu) as (l1 & l2 & -> & ->).
    now rewrite (fieldIds_eq (withName f text)), (fieldIds_eq f).
  - now rewrite !fieldValue_eq.
Qed.

Lemma setFieldName_overwrites_name_only_witness :
  exists s',
    setFieldName (pathOf [0]) "age" (defaultValues "u0") = Ok (tt, s')
    /\ lookupField [0] s'
       = Some {| id := id (newField "u0"); name := "age";
                 type := type (newField "u0");
                 fields := fields (newField "u0") |}
    /\ ids s' = ids (defaultValues "u0")
    /\ fieldValue (withName (newField "u0") "age") = fieldValue (newField "u0").
Proof.
  apply setFieldName_overwrites_name_only. reflexivity.
Defined.

Lemma updateField_frame (k : nat) (rest : list nat)
    (g : SchemaField -> SchemaField) (s s' : list SchemaField) :
  updateField (k :: rest) g s = Some s' ->
  List.length s' = List.length s
  /\ forall j, j <> k -> nth_error s' j = nth_error s j.
Proof.
  cbn [updateField]. destruct (nth_error s k) as [x|]; [|discriminate].
  assert (G : forall y, List.length (replaceAt k y s) = List.length s
                        /\ forall j, j <> k ->
                             nth_error (replaceAt k y s) j = nth_error s j).
  { intros y. split; [apply replaceAt_length|].
    intros j Hj. apply nth_error_replaceAt_neq. congruence. }
  destruct rest as [|i rest].
  - intros [= <-]. apply G.
  - destruct (fields x) as [c|]; [|discriminate].
    destruct (updateField (i :: rest) g c) as [c'|]; [|discriminate].
    intros [= <-]. apply G.
Qed.

(** An edit below root position [k] leaves the other root fields alone:
    adding under, removing under, retyping or renaming a field whose
    path starts at [k] keeps the number of root fields and every root
    field but the one at [k]. *)
Theorem nested_edits_keep_other_roots (s s' : SchemaFormValues) (k i : nat)
    (rest : list nat) (uuid text : string) (t : SchemaFieldType) :
  addField uuid (Some (pathOf (k :: rest))) s = Ok (None, s')
  \/ removeField (pathOf ((k :: rest) ++ [i])) s = Ok (tt, s')
  \/ setFieldType (pathOf (k :: rest)) t s = Ok (tt, s')
  \/ setFieldName (pathOf (k :: rest)) text s = Ok (tt, s') ->
  List.length s' = List.length s
  /\ forall j, j <> k -> nth_error s' j = nth_error s j.
Proof.
  intros [H|[H|[H|H]]].
  - rewrite addField_nested in H by discriminate.
    destruct (updateField (k :: rest) _ s) as [s1|] eqn:Hu; [|discriminate].
    injection H as <-. eapply updateField_frame; eauto.
  - rewrite removeField_nested in H by discriminate.
    destruct (updateField (k :: rest) _ s) as [s1|] eqn:Hu; [|discriminate].
    injection H as <-. eapply updateField_frame; eauto.
  - rewrite setFieldType_at in H by discriminate.
    destruct (updateField (k :: rest) _ s) as [s1|] eqn:Hu; [|discriminate].
    injection H as <-. eapply updateField_frame; eauto.
  - rewrite setFieldName_at in H by discriminate.
    destruct (updateField (k :: rest) _ s) as [s1|] eqn:Hu; [|discriminate].
    injection H as <-. eapply updateField_frame; eauto.
Qed.

Lemma nested_edits_keep_other_roots_witness :
  let a := {| id := "i1"; name := "a"; type := TNested; fields := None |} in
  let b := {| id := "i2"; name := "b"; type := TString; fields := None |} in
  let s' := [ {| id := "i1"; name := "a"; type := TNested;
                 fields := Some [newField "u"] |}; b ] in
  List.length s' = List.length [a; b]
  /\ forall j, j <> 0 -> nth_error s' j = nth_error [a; b] j.
Proof.
  intros a b s'.
  apply (nested_edits_keep_other_roots [a; b] s' 0 0 [] "u" "" TString).
  left. reflexivity.
Defined.

Lemma nestedAlong_parent (rel : list nat) (i : nat) (x p : SchemaField) :
  nestedAlong (rel ++ [i]) x = true -> descend rel x = Some p ->
  type p = TNested.
Proof.
  revert x. induction rel as [|j rel IH]; intros x; cbn [app nestedAlong descend].
  - intros H [= <-]. now destruct (type x).
  - destruct (type x); try discriminate.
    destruct (fields x) as [c|]; [|discriminate].
    destruct (nth_error c j) as [y|]; [|discriminate].
    apply IH.
Qed.

(** No row is shown below a field whose type is not [nested]: the parent
    of every nested row has type [nested], so children kept under a
    retyped field are out of reach of the screen. *)
Theorem rows_only_below_nested (s : SchemaFormValues) (r : Row)
    (pre : list nat) (i : nat) (p : SchemaField) :
  In r (JsonSchemaBuilder s) ->
  rowPath r = pathOf (pre ++ [i]) ->
  lookupField pre s = Some p ->
  type p = TNested.
Proof.
  intros Hin Hpath Hp. apply JsonSchemaBuilder_in in Hin.
  destruct Hin as (k & rel & x & E & Hk & Hd & Hn & _).
  rewrite E in Hpath. apply pathOf_inj in Hpath.
  pose proof (lookupField_some_nonempty _ _ _ Hp) as Hne.
  destruct pre as [|k' pre]; [congruence|].
  cbn [app] in Hpath. injection Hpath as -> ->.
  rewrite lookupField_descend, Hk in Hp.
  eapply nestedAlong_parent; eauto.
Qed.

Lemma rows_only_below_nested_witness :
  let child := {| id := "i2"; name := "city"; type := TString; fields := None |} in
  let p := {| id := "i1"; name := "address"; type := TNested;
              fields := Some [child] |} in
  type p = TNested.
Proof.
  intros child p.
  apply (rows_only_below_nested [p] (mkRow "fields.0.fields.0" child false)
           [0] 0 p).
  - cbn. auto.
  - reflexivity.
  - reflexivity.
Defined.

End Edits.
